(** * peanut_rgfw.c: the RGFW front end of the Peanut-GB emulator

    A shallow embedding of [src/peanut_rgfw.c].  The C program is a single
    thread that mutates two static structures ([gb], [priv]), the C heap,
    the window owned by RGFW and the process' output streams; it talks to
    two collaborators whose code is not part of the file (the Peanut-GB
    engine and RGFW).  The embedding threads one explicit [state] through
    every function and takes the answers of the collaborators from a
    [host] record, so that every function below is an executable Rocq
    function. *)

From Stdlib Require Import ZArith NArith Lia DecimalString.
From Stdlib Require Strings.Byte.
From Stdlib Require Import Ascii.
From stdpp Require Import base option list strings.

Local Open Scope Z_scope.

Abbreviation byte := Byte.byte.

(** ** Machine integers *)

(** Conversion to [uint32_t] / [unsigned int]. *)
Definition u32 (z : Z) : Z := z mod 2 ^ 32.

Definition EXIT_SUCCESS : Z := 0.
Definition EXIT_FAILURE : Z := 1.

(** ** The C heap

    A pointer is a natural number, [NULL] is [0]; pointer [S i] designates
    the [i]-th block ever allocated.  A block stays in the list after
    [free] so that a later access through a dangling pointer is seen. *)

Inductive block :=
| Live (data : list byte)
| Freed.

Definition NULL : nat := 0%nat.

Definition block_at (h : list block) (p : nat) : option block :=
  match p with
  | O => None
  | S i => h !! i
  end.

Definition block_set (h : list block) (p : nat) (b : block) : list block :=
  match p with
  | O => h
  | S i => <[i := b]> h
  end.

(** ** Collaborator types

    RGFW.h and peanut_gb.h are not part of the file; their types are
    modelled with the fields and values the file uses. *)

(** Modelled from the spec: the key codes of RGFW.h; the ones the source
    names, and [RGFW_key n] for every other code. *)
Inductive RGFW_Key :=
| RGFW_z | RGFW_x | RGFW_BackSpace | RGFW_Return
| RGFW_Right | RGFW_Left | RGFW_Up | RGFW_Down
| RGFW_r | RGFW_i | RGFW_o
| RGFW_key (code : Z).

(** Modelled from the spec: the event types of RGFW.h; the two the source
    names, and [RGFW_event n] for every other type. *)
Inductive RGFW_eventType :=
| RGFW_keyPressed
| RGFW_keyReleased
| RGFW_event (code : Z).

Record RGFW_Event := {
  type : RGFW_eventType;
  keyCode : RGFW_Key
}.

(** Modelled from the spec: [RGFW_window] of RGFW.h, with the fields the
    source touches: [r.w], [buffer] (read as an array of 32-bit pixels),
    [fpsCap] and [event]. *)
Record RGFW_window := {
  r_w : Z;
  buffer : list Z;
  fpsCap : Z;
  event : RGFW_Event
}.

(** Modelled from the spec: [gb.direct.joypad_bits] of peanut_gb.h, eight
    one-bit lines. *)
Record joypad_bits_t := {
  a : bool; b : bool; select : bool; start : bool;
  right : bool; left : bool; up : bool; down : bool
}.

(** Modelled from the spec: [struct gb_s] of peanut_gb.h, with the fields
    the source touches. *)
Record gb_s := {
  joypad_bits : joypad_bits_t;
  interlace : Z;
  frame_skip : Z
}.

(** Modelled from the spec: [enum gb_error_e] of peanut_gb.h, the five
    conditions the engine reports, numbered as the source's [gb_err_str]
    table names them. *)
Inductive gb_error_e :=
| GB_UNKNOWN_ERROR
| GB_INVALID_OPCODE
| GB_INVALID_READ
| GB_INVALID_WRITE
| GB_HALT_FOREVER.

Definition gb_error_code (e : gb_error_e) : Z :=
  match e with
  | GB_UNKNOWN_ERROR => 0
  | GB_INVALID_OPCODE => 1
  | GB_INVALID_READ => 2
  | GB_INVALID_WRITE => 3
  | GB_HALT_FOREVER => 4
  end.

(** Modelled from the spec: [enum gb_init_error_e] of peanut_gb.h; the
    source names the success value only, [GB_INIT_error n] is the failure
    value that [%d] prints as [n]. *)
Inductive gb_init_error_e :=
| GB_INIT_NO_ERROR
| GB_INIT_error (code : Z).

(** ** [struct priv_t] *)
Record priv_t := {
  rom : nat;
  cart_ram : nat;
  win : nat;
  screenWidth : Z
}.

(** ** Observable actions, in program order *)
Inductive action :=
| Stderr (text : string)
| Stdout (text : string)
| CreateWindow
| CloseWindow
| Fopen (path : string) (opened : bool)
| Fclose
| Malloc (p : nat) (size : nat)
| Free (p : nat)
| GbInit (ret : gb_init_error_e)
| GbInitLcd
| CheckEvent (e : option RGFW_Event)
| GbReset
| GbRunFrame (seen : gb_s) (unpolled : list RGFW_Event)
| SwapBuffers (shown : list Z)
| Exit (code : Z).

(** ** Program state *)
Record state := {
  heap : list block;
  priv : priv_t;
  gb : gb_s;
  (** the window behind [priv.win], [None] when no window exists *)
  display : option RGFW_window;
  (** host events not yet returned by [RGFW_window_checkEvent] *)
  queue : list RGFW_Event;
  (** the key state [RGFW_isPressedI] reports *)
  held : RGFW_Key → bool;
  trace : list action
}.

Definition set_heap (h : list block) (s : state) : state :=
  {| heap := h; priv := priv s; gb := gb s; display := display s;
     queue := queue s; held := held s; trace := trace s |}.
Definition set_priv (p : priv_t) (s : state) : state :=
  {| heap := heap s; priv := p; gb := gb s; display := display s;
     queue := queue s; held := held s; trace := trace s |}.
Definition set_gb (g : gb_s) (s : state) : state :=
  {| heap := heap s; priv := priv s; gb := g; display := display s;
     queue := queue s; held := held s; trace := trace s |}.
Definition set_display (d : option RGFW_window) (s : state) : state :=
  {| heap := heap s; priv := priv s; gb := gb s; display := d;
     queue := queue s; held := held s; trace := trace s |}.
Definition set_queue (q : list RGFW_Event) (s : state) : state :=
  {| heap := heap s; priv := priv s; gb := gb s; display := display s;
     queue := q; held := held s; trace := trace s |}.
Definition set_held (k : RGFW_Key → bool) (s : state) : state :=
  {| heap := heap s; priv := priv s; gb := gb s; display := display s;
     queue := queue s; held := k; trace := trace s |}.
Definition log (x : action) (s : state) : state :=
  {| heap := heap s; priv := priv s; gb := gb s; display := display s;
     queue := queue s; held := held s; trace := trace s ++ [x] |}.

(** ** The monad of C statements

    A statement either continues with a value and a new state, ends the
    process ([exit], or [main] returning), or has no defined behaviour. *)
Inductive result (A : Type) :=
| Ok (x : A) (s : state)
| Exited (code : Z) (s : state)
| Undefined.
Arguments Ok {A} x s.
Arguments Exited {A} code s.
Arguments Undefined {A}.

Definition M (A : Type) : Type := state → result A.

#[global] Instance M_ret : MRet M := λ A x s, Ok x s.
#[global] Instance M_bind : MBind M := λ A B f m s,
  match m s with
  | Ok x s' => f x s'
  | Exited code s' => Exited code s'
  | Undefined => Undefined
  end.

Definition get : M state := λ s, Ok s s.
Definition modify (f : state → state) : M unit := λ s, Ok tt (f s).
Definition undefined {A} : M A := λ _, Undefined.
Definition exit {A} (code : Z) : M A := λ s, Exited code (log (Exit code) s).
Definition emit (x : action) : M unit := modify (log x).

(** ** The host: what the collaborators answer

    RGFW, the engine, the C library and the file system are not part of
    the file; what they answer is read from a [host]. *)

(** A file as [fopen]/[ftell]/[fread] see it: [ftell] at the end reports
    [length contents]; [fread] hands over at most [delivered] bytes before
    it stops on an error. *)
Record file := {
  contents : list byte;
  delivered : nat
}.

(** The calls the engine makes back into the front end. *)
Inductive callback :=
| call_rom_read (addr : nat)
| call_cart_ram_read (addr : nat)
| call_cart_ram_write (addr : nat) (val : byte)
| call_lcd_draw_line (pixels : list byte) (line : Z)
| call_error (gb_err : gb_error_e) (val : Z).

(** One turn of the main loop in which the window is not asked to close:
    the events the host queued since the previous turn, the key state it
    reports and the calls [gb_run_frame] makes. *)
Record frame := {
  arrivals : list RGFW_Event;
  keyboard : RGFW_Key → bool;
  calls : list callback
}.

Record host := {
  argv : list string;
  (** [r.w] and [buffer] of the window [RGFW_createWindow] returns *)
  window_w : Z;
  window_buffer : list Z;
  (** [RGFW_getScreenSize().w] *)
  screen_w : Z;
  fs : string → option file;
  (** the byte found at an offset of a block [malloc] just returned *)
  uninit : nat → nat → byte;
  (** [strerror(errno)] after a failed load *)
  strerror_errno : string;
  (** what [gb_init] returns and what it makes of [gb] *)
  gb_init_ret : gb_init_error_e;
  gb_init_state : gb_s;
  gb_get_save_size : nat;
  (** what [gb_reset] makes of the fields of [gb] *)
  gb_reset : gb_s → gb_s;
  (** conversion of an [int] to the type of the [interlace] and
      [frame_skip] bit-fields, on assignment *)
  to_flag : Z → Z;
  (** the turns of the main loop before the window is asked to close *)
  frames : list frame
}.

(** ** C library *)

(** [malloc] never fails here; the source does not test its result
    either.  The fresh block holds whatever the host says it holds. *)
Definition malloc (junk : nat → nat → byte) (n : nat) : M nat := λ s,
  let p := S (length (heap s)) in
  Ok p (log (Malloc p n)
          (set_heap (heap s ++ [Live (map (junk p) (seq 0 n))]) s)).

(** [free(NULL)] does nothing; freeing anything but a live block is
    undefined. *)
Definition free (p : nat) : M unit := λ s,
  match p with
  | O => Ok tt s
  | S _ =>
      match block_at (heap s) p with
      | Some (Live _) => Ok tt (log (Free p) (set_heap (block_set (heap s) p Freed) s))
      | _ => Undefined
      end
  end.

(** [p[addr]] as an rvalue. *)
Definition load (p : nat) (addr : nat) : M byte := λ s,
  match block_at (heap s) p with
  | Some (Live data) =>
      match data !! addr with
      | Some v => Ok v s
      | None => Undefined
      end
  | _ => Undefined
  end.

(** [p[addr] = val]. *)
Definition store (p : nat) (addr : nat) (val : byte) : M unit := λ s,
  match block_at (heap s) p with
  | Some (Live data) =>
      if decide (addr < length data)%nat
      then Ok tt (set_heap (block_set (heap s) p (Live (<[addr := val]> data))) s)
      else Undefined
  | _ => Undefined
  end.

(** [fread(p, 1, n, f)]: the first [min n (delivered f)] bytes of the file
    land in the block, the rest of the block keeps what it held; the
    count is returned. *)
Definition fread (p : nat) (n : nat) (f : file) : M nat := λ s,
  match block_at (heap s) p with
  | Some (Live data) =>
      let got := take (n `min` delivered f) (contents f) in
      if decide (n ≤ length data)%nat
      then Ok (length got)
              (set_heap (block_set (heap s) p (Live (got ++ drop (length got) data))) s)
      else Undefined
  | _ => Undefined
  end.

(** ** The callbacks handed to [gb_init] *)

Definition gb_rom_read (addr : nat) : M byte :=
  s ← get; load (rom (priv s)) addr.

Definition gb_cart_ram_read (addr : nat) : M byte :=
  s ← get; load (cart_ram (priv s)) addr.

Definition gb_cart_ram_write (addr : nat) (val : byte) : M unit :=
  s ← get; store (cart_ram (priv s)) addr val.

(** ** [read_rom_to_ram] *)
Definition read_rom_to_ram (h : host) (file_name : string) : M nat :=
  match fs h file_name with
  | None => emit (Fopen file_name false);; mret NULL
  | Some rom_file =>
      emit (Fopen file_name true);;
      let rom_size := length (contents rom_file) in
      rom ← malloc (uninit h) rom_size;
      got ← fread rom rom_size rom_file;
      if decide (got ≠ rom_size)
      then free rom;; emit Fclose;; mret NULL
      else emit Fclose;; mret rom
  end.

(** ** [gb_error] *)

Definition u16 (z : Z) : Z := z mod 2 ^ 16.

Definition nl : string := String "010"%char EmptyString.

(** [%d] *)
Definition fmt_d (z : Z) : string := NilZero.string_of_int (Z.to_int z).

Definition hex_digit (d : Z) : ascii :=
  match d with
  | 0 => "0" | 1 => "1" | 2 => "2" | 3 => "3"
  | 4 => "4" | 5 => "5" | 6 => "6" | 7 => "7"
  | 8 => "8" | 9 => "9" | 10 => "A" | 11 => "B"
  | 12 => "C" | 13 => "D" | 14 => "E" | _ => "F"
  end%char.

(** [%04X] of a value below [2^16]: exactly four digits. *)
Definition fmt_04X (v : Z) : string :=
  String (hex_digit (v / 4096 mod 16))
    (String (hex_digit (v / 256 mod 16))
       (String (hex_digit (v / 16 mod 16))
          (String (hex_digit (v mod 16)) EmptyString))).

Definition gb_err_str : list string :=
  ["UNKNOWN"; "INVALID OPCODE"; "INVALID READ"; "INVALID WRITE"; "HALT FOREVER"].

Definition gb_error_message (code : Z) (name : string) (val : Z) : string :=
  "Error " +:+ fmt_d code +:+ " occurred: " +:+ name +:+ " at "
    +:+ fmt_04X (u16 val) +:+ nl +:+ ". Exiting." +:+ nl.

Definition gb_error (gb_err : gb_error_e) (val : Z) : M unit :=
  s ← get;
  match gb_err_str !! Z.to_nat (gb_error_code gb_err) with
  | None => undefined
  | Some name =>
      emit (Stderr (gb_error_message (gb_error_code gb_err) name val));;
      (* Free memory and then exit. *)
      free (cart_ram (priv s));;
      free (rom (priv s));;
      exit EXIT_FAILURE
  end.

(** ** [lcd_draw_line] *)

Definition palette : list Z := [0xFFFFFF; 0xA5A5A5; 0x525252; 0x000000].

(** [palette[px & 3]] *)
Definition shade (px : byte) : option Z :=
  palette !! N.to_nat (N.land (Byte.to_N px) 3).

(** The index [(priv->screenWidth * line) + x], computed in [uint32_t]. *)
Definition fb_index (stride line x : Z) : nat :=
  Z.to_nat (u32 (u32 (stride * line) + x)).

(** The [for] loop: [todo] columns are left, [x] is the next one. *)
Fixpoint draw_columns (todo : nat) (x : Z) (stride line : Z)
    (pixels : list byte) (fb : list Z) : option (list Z) :=
  match todo with
  | O => Some fb
  | S todo' =>
      px ← pixels !! Z.to_nat x;
      colour ← shade px;
      if decide (fb_index stride line x < length fb)%nat
      then draw_columns todo' (x + 1) stride line pixels
             (<[fb_index stride line x := colour]> fb)
      else None
  end.

Definition set_buffer (fb : list Z) (w : RGFW_window) : RGFW_window :=
  {| r_w := r_w w; buffer := fb; fpsCap := fpsCap w; event := event w |}.
Definition set_fpsCap (n : Z) (w : RGFW_window) : RGFW_window :=
  {| r_w := r_w w; buffer := buffer w; fpsCap := n; event := event w |}.
Definition set_event (e : RGFW_Event) (w : RGFW_window) : RGFW_window :=
  {| r_w := r_w w; buffer := buffer w; fpsCap := fpsCap w; event := e |}.

(** [*priv.win]: undefined through a null pointer or without a window. *)
Definition window : M RGFW_window := λ s,
  match win (priv s), display s with
  | S _, Some w => Ok w s
  | _, _ => Undefined
  end.

(** The loop bound [x < priv->win->r.w] compares in [unsigned int]. *)
Definition lcd_draw_line (pixels : list byte) (line : Z) : M unit :=
  s ← get;
  w ← window;
  match draw_columns (Z.to_nat (u32 (r_w w))) 0 (screenWidth (priv s)) line
          pixels (buffer w) with
  | Some fb => modify (set_display (Some (set_buffer fb w)))
  | None => undefined
  end.

(** ** [main] *)

Section Program.

Variable h : host.

Definition set_joypad_bits (j : joypad_bits_t) (g : gb_s) : gb_s :=
  {| joypad_bits := j; interlace := interlace g; frame_skip := frame_skip g |}.
Definition set_interlace (v : Z) (g : gb_s) : gb_s :=
  {| joypad_bits := joypad_bits g; interlace := v; frame_skip := frame_skip g |}.
Definition set_frame_skip (v : Z) (g : gb_s) : gb_s :=
  {| joypad_bits := joypad_bits g; interlace := interlace g; frame_skip := v |}.

(** Modelled from the spec: RGFW's key-state query, which RGFW.h defines;
    it reports whether the key is pressed at the time of the call. *)
Definition RGFW_isPressedI (k : RGFW_Key) : M bool := λ s,
  match win (priv s), display s with
  | S _, Some _ => Ok (held s k) s
  | _, _ => Undefined
  end.

(** Modelled from the spec: RGFW's poll-for-event, which RGFW.h defines;
    it takes one pending event, if there is one, into [win->event]. *)
Definition RGFW_window_checkEvent : M bool :=
  w ← window;
  s ← get;
  match queue s with
  | [] => emit (CheckEvent None);; mret false
  | e :: q =>
      emit (CheckEvent (Some e));;
      modify (set_queue q);;
      modify (set_display (Some (set_event e w)));;
      mret true
  end.

(** Modelled from the spec: RGFW's present/swap, which RGFW.h defines. *)
Definition RGFW_window_swapBuffers : M unit :=
  w ← window; emit (SwapBuffers (buffer w)).

(** Modelled from the spec: RGFW's window release, which RGFW.h defines. *)
Definition RGFW_window_close : M unit :=
  _ ← window; emit CloseWindow;; modify (set_display None).

(** Modelled from the spec: RGFW's create-window, which RGFW.h defines. *)
Definition RGFW_createWindow : M nat :=
  emit CreateWindow;;
  modify (set_display (Some {| r_w := window_w h; buffer := window_buffer h;
                               fpsCap := 0;
                               event := {| type := RGFW_event 0; keyCode := RGFW_key 0 |} |}));;
  mret 1%nat.

(** The eight assignments to [gb.direct.joypad_bits]. *)
Definition joypad_update : M unit :=
  za ← RGFW_isPressedI RGFW_z;
  xb ← RGFW_isPressedI RGFW_x;
  bs ← RGFW_isPressedI RGFW_BackSpace;
  rt ← RGFW_isPressedI RGFW_Return;
  kr ← RGFW_isPressedI RGFW_Right;
  kl ← RGFW_isPressedI RGFW_Left;
  ku ← RGFW_isPressedI RGFW_Up;
  kd ← RGFW_isPressedI RGFW_Down;
  modify (λ s, set_gb (set_joypad_bits
    {| a := negb za; b := negb xb; select := negb bs; start := negb rt;
       right := negb kr; left := negb kl; up := negb ku; down := negb kd |}
    (gb s)) s).

(** [switch(priv.win->event.keyCode)] *)
Definition hotkeys (k : RGFW_Key) : M unit :=
  match k with
  | RGFW_r => emit GbReset;; modify (λ s, set_gb (gb_reset h (gb s)) s)
  | RGFW_i =>
      modify (λ s, set_gb (set_interlace (to_flag h (Z.lnot (interlace (gb s)))) (gb s)) s)
  | RGFW_o =>
      modify (λ s, set_gb (set_frame_skip (to_flag h (Z.lnot (frame_skip (gb s)))) (gb s)) s)
  | _ => mret tt
  end.

(** [switch(priv.win->event.type)] *)
Definition on_event (e : RGFW_Event) : M unit :=
  match type e with
  | RGFW_keyReleased
  | RGFW_keyPressed => joypad_update;; hotkeys (keyCode e)
  | RGFW_event _ => mret tt
  end.

Definition dispatch (c : callback) : M unit :=
  match c with
  | call_rom_read addr => gb_rom_read addr;; mret tt
  | call_cart_ram_read addr => gb_cart_ram_read addr;; mret tt
  | call_cart_ram_write addr val => gb_cart_ram_write addr val
  | call_lcd_draw_line pixels line => lcd_draw_line pixels line
  | call_error gb_err val => gb_error gb_err val
  end.

Fixpoint run_calls (cs : list callback) : M unit :=
  match cs with
  | [] => mret tt
  | c :: cs' => dispatch c;; run_calls cs'
  end.

(** Modelled from the spec: the engine's run-one-frame entry point, which
    peanut_gb.h defines; it calls back into the front end. *)
Definition gb_run_frame (cs : list callback) : M unit :=
  s ← get; emit (GbRunFrame (gb s) (queue s));; run_calls cs.

(** One turn of [while(RGFW_window_shouldClose(priv.win) == 0)]. *)
Definition turn (f : frame) : M unit :=
  (* the host queues its new events and reports its key state *)
  modify (λ s, set_held (keyboard f) (set_queue (queue s ++ arrivals f) s));;
  got ← RGFW_window_checkEvent;
  (if got : bool then w ← window; on_event (event w) else mret tt);;
  (* Execute CPU cycles until the screen has to be redrawn. *)
  gb_run_frame (calls f);;
  RGFW_window_swapBuffers.

(** The window is asked to close once the turns of the host are used
    up: [RGFW_window_shouldClose] returns 0 before each turn of the list
    and a non-zero value after the last. *)
Fixpoint main_loop (turns : list frame) : M unit :=
  match turns with
  | [] => mret tt
  | f :: turns' => turn f;; main_loop turns'
  end.

Definition set_rom (p : nat) (v : priv_t) : priv_t :=
  {| rom := p; cart_ram := cart_ram v; win := win v; screenWidth := screenWidth v |}.
Definition set_cart_ram (p : nat) (v : priv_t) : priv_t :=
  {| rom := rom v; cart_ram := p; win := win v; screenWidth := screenWidth v |}.
Definition set_win (p : nat) (v : priv_t) : priv_t :=
  {| rom := rom v; cart_ram := cart_ram v; win := p; screenWidth := screenWidth v |}.
Definition set_screenWidth (n : Z) (v : priv_t) : priv_t :=
  {| rom := rom v; cart_ram := cart_ram v; win := win v; screenWidth := n |}.

(** Lines 143-167 of the source: from the image load to the frame cap. *)
Definition setup (rom_file_name : string) : M unit :=
  (* Copy input ROM file to allocated memory. *)
  p ← read_rom_to_ram h rom_file_name;
  modify (λ s, set_priv (set_rom p (priv s)) s);;
  (if decide (p = NULL)
   then emit (Stdout ("146: " +:+ strerror_errno h +:+ nl));; exit EXIT_FAILURE
   else mret tt);;
  (* Initialise context. *)
  emit (GbInit (gb_init_ret h));;
  modify (set_gb (gb_init_state h));;
  (match gb_init_ret h with
   | GB_INIT_NO_ERROR => mret tt
   | GB_INIT_error ret =>
       emit (Stdout ("Error: " +:+ fmt_d ret +:+ nl));;
       exit EXIT_FAILURE
   end);;
  q ← malloc (uninit h) (gb_get_save_size h);
  modify (λ s, set_priv (set_cart_ram q (priv s)) s);;
  emit GbInitLcd;;
  w ← window;
  modify (set_display (Some (set_fpsCap 60 w))).

Definition main : M unit :=
  w ← RGFW_createWindow;
  modify (λ s, set_priv (set_win w (priv s)) s);;
  modify (λ s, set_priv (set_screenWidth (u32 (screen_w h)) (priv s)) s);;
  match argv h with
  | [_; rom_file_name] =>
      setup rom_file_name;;
      main_loop (frames h);;
      RGFW_window_close;;
      s ← get;
      free (cart_ram (priv s));;
      free (rom (priv s));;
      exit EXIT_SUCCESS
  | argv0 :: _ =>
      emit (Stderr (argv0 +:+ " ROM" +:+ nl));;
      exit EXIT_FAILURE
  | [] =>
      (* argv[0] is a null pointer and is printed with %s *)
      undefined
  end.

(** The statics are zero-initialised; nothing is allocated or queued. *)
Definition boot : state :=
  {| heap := [];
     priv := {| rom := NULL; cart_ram := NULL; win := NULL; screenWidth := 0 |};
     gb := {| joypad_bits := {| a := false; b := false; select := false;
                                start := false; right := false; left := false;
                                up := false; down := false |};
              interlace := 0; frame_skip := 0 |};
     display := None;
     queue := [];
     held := λ _, false;
     trace := [] |}.

Definition run : result unit := main boot.

End Program.

(** ** Concrete inputs, for the examples below *)

Definition bytes (l : list N) : list byte :=
  map (λ n, default Byte.x00 (Byte.of_N n)) l.

Definition no_event : RGFW_Event := {| type := RGFW_event 0; keyCode := RGFW_key 0 |}.

Definition small_window : RGFW_window :=
  {| r_w := 2; buffer := replicate 8 0x123456; fpsCap := 60; event := no_event |}.

(** A window two pixels wide on a screen four pixels wide. *)
Definition narrow_window : state :=
  set_display (Some small_window)
    (set_priv {| rom := NULL; cart_ram := NULL; win := 1; screenWidth := 4 |} boot).

Definition press (k : RGFW_Key) : RGFW_Event := {| type := RGFW_keyPressed; keyCode := k |}.
Definition release (k : RGFW_Key) : RGFW_Event := {| type := RGFW_keyReleased; keyCode := k |}.

(** A host with a three-byte image [game.gb], a two-byte save RAM and an
    engine that makes no calls; [args] are the command-line words, [ret]
    is what [gb_init] returns, [turns] are the turns of the loop. *)
Definition desk (args : list string) (ret : gb_init_error_e) (turns : list frame) : host :=
  {| argv := args;
     window_w := 2;
     window_buffer := replicate 8 0x123456;
     screen_w := 4;
     fs := λ path,
       if decide (path = "game.gb")
       then Some {| contents := bytes [1; 2; 3]%N; delivered := 3 |}
       else if decide (path = "torn.gb")
       then Some {| contents := bytes [1; 2; 3]%N; delivered := 1 |}
       else None;
     uninit := λ _ _, Byte.xaa;
     strerror_errno := "No such file or directory";
     gb_init_ret := ret;
     gb_init_state := gb boot;
     gb_get_save_size := 2;
     gb_reset := λ g, g;
     to_flag := λ z, z mod 2;
     frames := turns |}.

(** The same host before any argument is looked at. *)
Definition quiet : host := desk [] GB_INIT_NO_ERROR [].

(** A state with a live image at pointer 1 and a live save RAM at 2. *)
Definition loaded : state :=
  set_heap [Live (bytes [1; 2; 3]%N); Live (bytes [170; 170]%N)]
    (set_priv {| rom := 1; cart_ram := 2; win := 1; screenWidth := 4 |} narrow_window).

(** ** Observations on a run *)

(** The pointers passed to [free], in order. *)
Definition frees (t : list action) : list nat :=
  omap (λ x, match x with Free p => Some p | _ => None end) t.

(** The number of calls of [gb_reset]. *)
Definition resets (t : list action) : nat :=
  length (omap (λ x, match x with GbReset => Some tt | _ => None end) t).

(** What holds from the end of [setup] to the end of the main loop: the
    image is the first block and the save RAM the second, both live, the
    save RAM has the size the engine reported, the window exists and
    nothing has been freed. *)
Definition running (h : host) (s : state) : Prop :=
  ∃ image ram : list byte,
    heap s = [Live image; Live ram]
    ∧ rom (priv s) = 1%nat ∧ cart_ram (priv s) = 2%nat
    ∧ length ram = gb_get_save_size h
    ∧ win (priv s) ≠ NULL ∧ is_Some (display s)
    ∧ frees (trace s) = [].

(** What a piece of the main loop started in a [running] state may end
    in: it returns in a [running] state, or the fatal error handler has
    ended the process with a failure status, both blocks freed once. *)
Definition settled {A : Type} (h : host) (r : result A) : Prop :=
  match r with
  | Ok _ s' => running h s'
  | Exited code s' =>
      code = EXIT_FAILURE ∧ heap s' = [Freed; Freed]
      ∧ frees (trace s') = [2; 1]%nat
  | Undefined => True
  end.

(** ** Proof tools *)

Ltac monad_unfold :=
  unfold mbind, mret, M_bind, M_ret, emit, get, modify, undefined, exit in *.

(** ** Further observations and inputs *)

(** The events [RGFW_window_checkEvent] handed over, in order. *)
Definition polled (t : list action) : list RGFW_Event :=
  omap (λ x, match x with CheckEvent (Some e) => Some e | _ => None end) t.

(** The states of [gb] in which the engine ran a frame, in order. *)
Definition frames_run (t : list action) : list gb_s :=
  omap (λ x, match x with GbRunFrame g _ => Some g | _ => None end) t.

(** The framebuffers presented, in order. *)
Definition presented (t : list action) : list (list Z) :=
  omap (λ x, match x with SwapBuffers fb => Some fb | _ => None end) t.

(** The state [main] is in when it calls [setup]: the window exists,
    nothing is allocated. *)
Definition at_setup : state :=
  set_priv {| rom := NULL; cart_ram := NULL; win := 1; screenWidth := 4 |}
    (set_display (Some {| r_w := 2; buffer := replicate 8 0x123456; fpsCap := 0;
                          event := no_event |})
       (log CreateWindow boot)).

(** What a piece of [main] run with a window may end in: it returns with
    the window still there, or the process has ended with a failure status
    and the window still there. *)
Definition windowed {A : Type} (r : result A) : Prop :=
  match r with
  | Ok _ s' => win (priv s') ≠ NULL ∧ is_Some (display s')
  | Exited code s' => code = EXIT_FAILURE ∧ is_Some (display s')
  | Undefined => True
  end.

(** A call of the engine that stays inside the image, the save RAM, the
    row it passes and the framebuffer of the host's window. *)
Definition call_ok (h : host) (image : list byte) (c : callback) : Prop :=
  match c with
  | call_rom_read addr => (addr < length image)%nat
  | call_cart_ram_read addr => (addr < gb_get_save_size h)%nat
  | call_cart_ram_write addr _ => (addr < gb_get_save_size h)%nat
  | call_lcd_draw_line pixels line =>
      u32 (window_w h) ≤ Z.of_nat (length pixels)
      ∧ ∀ x, 0 ≤ x < u32 (window_w h) →
          (fb_index (u32 (screen_w h)) line x < length (window_buffer h))%nat
  | call_error _ _ => True
  end.

(** The state of the main loop, with the sizes the host fixed: the image,
    a save RAM of the reported size, the window with its width and the
    size of its framebuffer, the stride. *)
Definition steady (h : host) (image : list byte) (s : state) : Prop :=
  ∃ (ram : list byte) (w : RGFW_window),
    heap s = [Live image; Live ram]
    ∧ rom (priv s) = 1%nat ∧ cart_ram (priv s) = 2%nat
    ∧ length ram = gb_get_save_size h
    ∧ win (priv s) ≠ NULL ∧ display s = Some w
    ∧ r_w w = window_w h
    ∧ length (buffer w) = length (window_buffer h)
    ∧ screenWidth (priv s) = u32 (screen_w h).

(** A piece of the main loop that does not leave defined behaviour. *)
Definition defined {A : Type} (h : host) (image : list byte) (r : result A) : Prop :=
  match r with
  | Ok _ s' => steady h image s'
  | Exited _ _ => True
  | Undefined => False
  end.
(** * Properties *)

(** ** The scanline renderer *)

Lemma shade_cases (px : byte) :
  shade px = Some (match N.land (Byte.to_N px) 3 with
                   | 0%N => 0xFFFFFF | 1%N => 0xA5A5A5 | 2%N => 0x525252 | _ => 0x000000
                   end).
Proof.
  unfold shade.
  assert (Hlt : (N.land (Byte.to_N px) 3 < 4)%N).
  { change 4%N with (2 ^ 2)%N. rewrite (N.land_ones _ 2). apply N.mod_upper_bound. discriminate. }
  destruct (N.land (Byte.to_N px) 3) as [|[[|[]|]|[|[]|]|]]; try reflexivity; lia.
Qed.

Lemma fb_index_eq (stride line x : Z) :
  Z.of_nat (fb_index stride line x) = (stride * line + x) mod 2 ^ 32.
Proof.
  unfold fb_index, u32. rewrite Z2Nat.id by (apply Z.mod_pos_bound; lia).
  now rewrite Zplus_mod_idemp_l.
Qed.

Lemma fb_index_inj (stride line x y : Z) :
  0 ≤ x < 2 ^ 32 → 0 ≤ y < 2 ^ 32 →
  fb_index stride line x = fb_index stride line y → x = y.
Proof.
  intros Hx Hy Heq. apply (f_equal Z.of_nat) in Heq.
  rewrite !fb_index_eq in Heq.
  set (c := stride * line) in *.
  assert (Hd : (x - y) mod 2 ^ 32 = 0).
  { replace (x - y) with ((c + x) - (c + y)) by lia.
    rewrite Zminus_mod, Heq, Z.sub_diag. reflexivity. }
  apply Z.mod_divide in Hd; [|lia]. destruct Hd as [k Hk]. lia.
Qed.

Lemma draw_columns_spec (todo : nat) :
  ∀ (x stride line : Z) (pixels : list byte) (fb fb' : list Z),
    0 ≤ x → x + Z.of_nat todo ≤ 2 ^ 32 →
    draw_columns todo x stride line pixels fb = Some fb' →
    length fb' = length fb
    ∧ (∀ k, x ≤ k < x + Z.of_nat todo →
         ∃ px, pixels !! Z.to_nat k = Some px
               ∧ (fb_index stride line k < length fb)%nat
               ∧ fb' !! fb_index stride line k = shade px)
    ∧ (∀ i : nat, (∀ k, x ≤ k < x + Z.of_nat todo → i ≠ fb_index stride line k) →
         fb' !! i = fb !! i).
Proof.
  induction todo as [|todo IH]; intros x stride line pixels fb fb' Hx Hmax Hrun.
  - simpl in Hrun. injection Hrun as <-. split; [done|]. split; [intros; lia | done].
  - simpl in Hrun.
    destruct (pixels !! Z.to_nat x) as [px|] eqn:Hpx; [|discriminate].
    simpl in Hrun. rewrite shade_cases in Hrun. simpl in Hrun.
    case_decide as Hin; [|discriminate].
    apply IH in Hrun as (Hlen & Hcols & Hrest); [|lia..].
    rewrite length_insert in Hlen. split; [exact Hlen|]. split.
    + intros k Hk. destruct (decide (k = x)) as [->|Hne].
      * exists px. split; [exact Hpx|]. split; [exact Hin|].
        rewrite Hrest.
        -- rewrite list_lookup_insert_eq by exact Hin. now rewrite shade_cases.
        -- intros k' Hk' Heq. apply fb_index_inj in Heq; lia.
      * destruct (Hcols k) as (px' & Hpx' & Hin' & Hval); [lia|].
        rewrite length_insert in Hin'. eauto.
    + intros i Hi. rewrite Hrest.
      * apply list_lookup_insert_ne. intros Heq. apply (Hi x); [lia|done].
      * intros k Hk. apply Hi. lia.
Qed.

Lemma draw_columns_total (todo : nat) :
  ∀ (x stride line : Z) (pixels : list byte) (fb : list Z),
    0 ≤ x →
    (∀ k, x ≤ k < x + Z.of_nat todo →
       (Z.to_nat k < length pixels)%nat ∧ (fb_index stride line k < length fb)%nat) →
    is_Some (draw_columns todo x stride line pixels fb).
Proof.
  induction todo as [|todo IH]; intros x stride line pixels fb Hx Hok; [by eexists|].
  simpl. destruct (Hok x) as [Hpx Hin]; [lia|].
  apply lookup_lt_is_Some_2 in Hpx as [px ->]. simpl.
  rewrite shade_cases. simpl. rewrite decide_True by exact Hin.
  apply IH; [lia|]. intros k Hk. rewrite length_insert. apply Hok. lia.
Qed.

Lemma window_ok (s : state) (w : RGFW_window) :
  win (priv s) ≠ NULL → display s = Some w → window s = Ok w s.
Proof. unfold window. intros Hw ->. now destruct (win (priv s)). Qed.

Lemma lcd_draw_line_unfold (s : state) (w : RGFW_window) (pixels : list byte) (line : Z) :
  win (priv s) ≠ NULL → display s = Some w →
  lcd_draw_line pixels line s =
    match draw_columns (Z.to_nat (u32 (r_w w))) 0 (screenWidth (priv s)) line
            pixels (buffer w) with
    | Some fb => Ok tt (set_display (Some (set_buffer fb w)) s)
    | None => Undefined
    end.
Proof.
  intros Hw Hd. unfold lcd_draw_line, mbind, M_bind, get.
  rewrite (window_ok s w Hw Hd). now destruct draw_columns.
Qed.

Lemma u32_range (z : Z) : 0 ≤ u32 z < 2 ^ 32.
Proof. apply Z.mod_pos_bound. lia. Qed.







(** ** Events *)

Lemma RGFW_isPressedI_ok (k : RGFW_Key) (s : state) (w : RGFW_window) :
  win (priv s) ≠ NULL → display s = Some w →
  RGFW_isPressedI k s = Ok (held s k) s.
Proof. unfold RGFW_isPressedI. intros Hw ->. now destruct (win (priv s)). Qed.

Lemma joypad_update_ok (s : state) (w : RGFW_window) :
  win (priv s) ≠ NULL → display s = Some w →
  joypad_update s
  = Ok tt (set_gb (set_joypad_bits
       {| a := negb (held s RGFW_z); b := negb (held s RGFW_x);
          select := negb (held s RGFW_BackSpace); start := negb (held s RGFW_Return);
          right := negb (held s RGFW_Right); left := negb (held s RGFW_Left);
          up := negb (held s RGFW_Up); down := negb (held s RGFW_Down) |}
       (gb s)) s).
Proof.
  intros Hw Hd. unfold joypad_update. monad_unfold.
  now rewrite !(RGFW_isPressedI_ok _ s w Hw Hd).
Qed.

Lemma hotkeys_ok (h : host) (k : RGFW_Key) (s : state) :
  ∃ s', hotkeys h k s = Ok tt s'
        ∧ trace s' = trace s ++ match k with RGFW_r => [GbReset] | _ => [] end
        ∧ gb s' = match k with
                  | RGFW_r => gb_reset h (gb s)
                  | RGFW_i => set_interlace (to_flag h (Z.lnot (interlace (gb s)))) (gb s)
                  | RGFW_o => set_frame_skip (to_flag h (Z.lnot (frame_skip (gb s)))) (gb s)
                  | _ => gb s
                  end
        ∧ heap s' = heap s ∧ priv s' = priv s ∧ display s' = display s
        ∧ queue s' = queue s ∧ held s' = held s.
Proof.
  destruct k; eexists; (split; [reflexivity|]); simpl;
    rewrite ?app_nil_r; repeat split.
Qed.

Lemma on_event_key (h : host) (e : RGFW_Event) (s : state) :
  type e = RGFW_keyPressed ∨ type e = RGFW_keyReleased →
  on_event h e s = (joypad_update;; hotkeys h (keyCode e)) s.
Proof. unfold on_event. now intros [-> | ->]. Qed.

(** C3: on a key event, press or release, of any key, the eight joypad
    lines are all assigned, each with the negation of the pressed state of
    its key; what the lines held before does not matter; the hot-key switch
    that follows leaves them alone unless the key is the reset key, where
    [gb_reset] has the last word. *)
Theorem joypad_lines_negate_keys (h : host) (e : RGFW_Event) (s : state)
    (w : RGFW_window) :
  win (priv s) ≠ NULL → display s = Some w →
  type e = RGFW_keyPressed ∨ type e = RGFW_keyReleased →
  ∃ s1 : state,
    joypad_update s = Ok tt s1
    ∧ on_event h e s = hotkeys h (keyCode e) s1
    ∧ joypad_bits (gb s1)
      = {| a := negb (held s RGFW_z); b := negb (held s RGFW_x);
           select := negb (held s RGFW_BackSpace); start := negb (held s RGFW_Return);
           right := negb (held s RGFW_Right); left := negb (held s RGFW_Left);
           up := negb (held s RGFW_Up); down := negb (held s RGFW_Down) |}
    ∧ (∀ stale : joypad_bits_t,
         on_event h e (set_gb (set_joypad_bits stale (gb s)) s) = on_event h e s)
    ∧ (keyCode e ≠ RGFW_r →
       ∃ s2, on_event h e s = Ok tt s2 ∧ joypad_bits (gb s2) = joypad_bits (gb s1)).
Proof.
  intros Hw Hd He. eexists. split; [apply (joypad_update_ok s w Hw Hd)|].
  split; [|split; [reflexivity|split]].
  - rewrite on_event_key by exact He. monad_unfold.
    now rewrite (joypad_update_ok s w Hw Hd).
  - intros stale. rewrite !on_event_key by exact He. monad_unfold.
    rewrite (joypad_update_ok s w Hw Hd).
    now rewrite (joypad_update_ok (set_gb (set_joypad_bits stale (gb s)) s) w Hw Hd).
  - intros Hk. rewrite on_event_key by exact He. monad_unfold.
    rewrite (joypad_update_ok s w Hw Hd).
    destruct (hotkeys_ok h (keyCode e)
                (set_gb (set_joypad_bits
                   {| a := negb (held s RGFW_z); b := negb (held s RGFW_x);
                      select := negb (held s RGFW_BackSpace);
                      start := negb (held s RGFW_Return);
                      right := negb (held s RGFW_Right); left := negb (held s RGFW_Left);
                      up := negb (held s RGFW_Up); down := negb (held s RGFW_Down) |}
                   (gb s)) s)) as (s2 & Hrun & _ & Hgb & _).
    exists s2. split; [exact Hrun|]. rewrite Hgb.
    destruct (keyCode e); try reflexivity. congruence.
Qed.

Lemma joypad_lines_negate_keys_witness :
  ∃ s1 : state,
    joypad_update (set_held (λ k, match k with RGFW_z => true | _ => false end) narrow_window)
      = Ok tt s1
    ∧ joypad_bits (gb s1)
      = {| a := false; b := true; select := true; start := true;
           right := true; left := true; up := true; down := true |}.
Proof.
  destruct (joypad_lines_negate_keys quiet (release RGFW_o)
              (set_held (λ k, match k with RGFW_z => true | _ => false end) narrow_window)
              small_window) as (s1 & Hrun & _ & Hbits & _).
  - discriminate.
  - reflexivity.
  - right. reflexivity.
  - exists s1. split; [exact Hrun | exact Hbits].
Defined.

(** ** One turn of the main loop *)

Lemma frees_app (t u : list action) : frees (t ++ u) = frees t ++ frees u.
Proof. apply omap_app. Qed.

Lemma on_event_ok (h : host) (e : RGFW_Event) (s : state) (w : RGFW_window) :
  win (priv s) ≠ NULL → display s = Some w →
  ∃ s1, on_event h e s = Ok tt s1
        ∧ heap s1 = heap s ∧ priv s1 = priv s ∧ display s1 = display s
        ∧ queue s1 = queue s ∧ held s1 = held s
        ∧ frees (trace s1) = frees (trace s).
Proof.
  intros Hw Hd. pose proof (joypad_update_ok s w Hw Hd) as Hjoy.
  unfold on_event. destruct (type e).
  1,2: monad_unfold; rewrite Hjoy;
       match goal with |- context [hotkeys ?h' ?k ?st] =>
         destruct (hotkeys_ok h' k st) as (s2 & -> & Htr & _ & H1 & H2 & H3 & H4 & H5)
       end; exists s2; split; [reflexivity|];
       rewrite Htr, frees_app, H1, H2, H3, H4, H5;
       destruct (keyCode e); simpl; rewrite ?app_nil_r; repeat split.
  exists s. repeat split.
Qed.

Lemma RGFW_window_checkEvent_ok (s : state) (w : RGFW_window) :
  win (priv s) ≠ NULL → display s = Some w →
  RGFW_window_checkEvent s
  = match queue s with
    | [] => Ok false (log (CheckEvent None) s)
    | e :: q =>
        Ok true (set_display (Some (set_event e w))
                   (set_queue q (log (CheckEvent (Some e)) s)))
    end.
Proof.
  intros Hw Hd. unfold RGFW_window_checkEvent. monad_unfold.
  rewrite (window_ok s w Hw Hd). now destruct (queue s).
Qed.

Lemma load_Ok (p addr : nat) (s s' : state) (v : byte) :
  load p addr s = Ok v s' → s' = s.
Proof.
  unfold load. destruct (block_at (heap s) p) as [[data|]|]; try discriminate.
  destruct (data !! addr); [congruence | discriminate].
Qed.

Lemma store_Ok (p addr : nat) (val : byte) (s s' : state) :
  store p addr val s = Ok tt s' →
  ∃ data, block_at (heap s) p = Some (Live data) ∧ (addr < length data)%nat
          ∧ s' = set_heap (block_set (heap s) p (Live (<[addr := val]> data))) s.
Proof.
  unfold store. destruct (block_at (heap s) p) as [[data|]|]; try discriminate.
  case_decide; [|discriminate]. intros [= <-]. eauto.
Qed.

Lemma free_cases (p : nat) (s : state) :
  free p s = Undefined
  ∨ (p = NULL ∧ free p s = Ok tt s)
  ∨ (∃ data, block_at (heap s) p = Some (Live data)
             ∧ free p s = Ok tt (log (Free p) (set_heap (block_set (heap s) p Freed) s))).
Proof.
  unfold free. destruct p as [|i]; [right; left; done|].
  destruct (block_at (heap s) (S i)) as [[data|]|]; eauto.
Qed.

Lemma gb_error_never_returns (gb_err : gb_error_e) (val : Z) (s s' : state) (u : unit) :
  gb_error gb_err val s ≠ Ok u s'.
Proof.
  unfold gb_error. monad_unfold.
  destruct (gb_err_str !! Z.to_nat (gb_error_code gb_err)) as [name|]; [|discriminate].
  repeat (match goal with |- context [free ?p ?st] =>
            destruct (free_cases p st) as [-> | [[_ ->] | (? & _ & ->)]]
          end; simpl; try discriminate).
Qed.

(** A callback that returns leaves everything but the heap and the
    framebuffer as it was. *)
Lemma dispatch_Ok (c : callback) (s s' : state) :
  dispatch c s = Ok tt s' →
  trace s' = trace s ∧ priv s' = priv s ∧ gb s' = gb s
  ∧ queue s' = queue s ∧ held s' = held s
  ∧ (is_Some (display s) → is_Some (display s')).
Proof.
  destruct c as [addr|addr|addr val|pixels line|gb_err val]; simpl.
  - unfold gb_rom_read. monad_unfold.
    destruct (load (rom (priv s)) addr s) as [v s1| |] eqn:Hl; try discriminate.
    apply load_Ok in Hl as ->. now intros [= <-].
  - unfold gb_cart_ram_read. monad_unfold.
    destruct (load (cart_ram (priv s)) addr s) as [v s1| |] eqn:Hl; try discriminate.
    apply load_Ok in Hl as ->. now intros [= <-].
  - unfold gb_cart_ram_write. monad_unfold.
    intros Hs. apply store_Ok in Hs as (data & _ & _ & ->). now simpl.
  - unfold lcd_draw_line. monad_unfold.
    destruct (window s) as [w s1| |] eqn:Hwin; try discriminate.
    assert (s1 = s) as ->.
    { unfold window in Hwin. destruct (win (priv s)), (display s); congruence. }
    destruct draw_columns; [|discriminate]. intros [= <-]. simpl.
    repeat split. intros _. by eexists.
  - intros Hret. now apply gb_error_never_returns in Hret.
Qed.

Lemma run_calls_Ok (cs : list callback) :
  ∀ s s' : state,
    run_calls cs s = Ok tt s' →
    trace s' = trace s ∧ priv s' = priv s ∧ gb s' = gb s
    ∧ queue s' = queue s ∧ held s' = held s
    ∧ (is_Some (display s) → is_Some (display s')).
Proof.
  induction cs as [|c cs IH]; intros s s'; simpl.
  - now intros [= <-].
  - monad_unfold. destruct (dispatch c s) as [[] s1| |] eqn:Hc; try discriminate.
    intros Hrest. apply dispatch_Ok in Hc as (H1 & H2 & H3 & H4 & H5 & H6).
    apply IH in Hrest as (I1 & I2 & I3 & I4 & I5 & I6).
    repeat split; try congruence. tauto.
Qed.

Lemma turn_poll (h : host) (f : frame) (s : state) (w : RGFW_window) :
  win (priv s) ≠ NULL → display s = Some w →
  ∃ s1 : state,
    turn h f s = (gb_run_frame (calls f);; RGFW_window_swapBuffers) s1
    ∧ win (priv s1) ≠ NULL ∧ is_Some (display s1)
    ∧ heap s1 = heap s ∧ priv s1 = priv s
    ∧ frees (trace s1) = frees (trace s)
    ∧ queue s1 = tail (queue s ++ arrivals f)
    ∧ match head (queue s ++ arrivals f) with
      | None => gb s1 = gb s ∧ trace s1 = trace s ++ [CheckEvent None]
      | Some e =>
          ∃ sp, gb sp = gb s ∧ held sp = keyboard f
                ∧ trace sp = trace s ++ [CheckEvent (Some e)]
                ∧ on_event h e sp = Ok tt s1
      end.
Proof.
  intros Hw Hd.
  pose (s0 := set_held (keyboard f) (set_queue (queue s ++ arrivals f) s)).
  assert (Hturn : turn h f s
            = (got ← RGFW_window_checkEvent;
               (if got : bool then w ← window; on_event h (event w) else mret tt);;
               gb_run_frame (calls f);; RGFW_window_swapBuffers) s0) by reflexivity.
  assert (Hpoll := RGFW_window_checkEvent_ok s0 w Hw Hd).
  change (queue s0) with (queue s ++ arrivals f) in Hpoll.
  rewrite Hturn. clear Hturn.
  destruct (queue s ++ arrivals f) as [|e q] eqn:Hq.
  - exists (log (CheckEvent None) s0). split.
    { monad_unfold. now rewrite Hpoll. }
    simpl. rewrite Hd, frees_app, app_nil_r. eauto 10.
  - set (sp := set_display (Some (set_event e w))
                 (set_queue q (log (CheckEvent (Some e)) s0))) in *.
    destruct (on_event_ok h e sp (set_event e w))
      as (s1 & Hrun & Hhp & Hp & Hdisp & Hqu & _ & Hfr); [exact Hw | reflexivity |].
    exists s1. split.
    { monad_unfold. rewrite Hpoll.
      rewrite (window_ok sp (set_event e w)) by done.
      change (event (set_event e w)) with e. now rewrite Hrun. }
    rewrite Hp, Hdisp, Hqu, Hhp, Hfr. simpl. rewrite frees_app, app_nil_r.
    split; [exact Hw|]. split; [by eexists|].
    do 4 (split; [reflexivity|]). exists sp. repeat split. exact Hrun.
Qed.

(** C6, as the source has it: a turn polls once ([if], not [while]), so it
    takes the oldest pending event, if there is one, and leaves the others
    queued; if the event is a key event its handler runs; then the engine
    runs its frame, in the state the handler left; when the frame returns
    the framebuffer is presented and the turn ends. *)
Theorem turn_takes_one_event (h : host) (f : frame) (s : state) (w : RGFW_window) :
  win (priv s) ≠ NULL → display s = Some w →
  ∃ s1 : state,
    turn h f s = (gb_run_frame (calls f);; RGFW_window_swapBuffers) s1
    ∧ queue s1 = tail (queue s ++ arrivals f)
    ∧ match head (queue s ++ arrivals f) with
      | None => gb s1 = gb s ∧ trace s1 = trace s ++ [CheckEvent None]
      | Some e =>
          ∃ sp, gb sp = gb s ∧ held sp = keyboard f
                ∧ trace sp = trace s ++ [CheckEvent (Some e)]
                ∧ on_event h e sp = Ok tt s1
      end
    ∧ ∀ s2 : state,
        run_calls (calls f) (log (GbRunFrame (gb s1) (queue s1)) s1) = Ok tt s2 →
        ∃ w2, display s2 = Some w2
              ∧ turn h f s = Ok tt (log (SwapBuffers (buffer w2)) s2)
              ∧ trace s2 = trace s1 ++ [GbRunFrame (gb s1) (tail (queue s ++ arrivals f))]
              ∧ queue s2 = tail (queue s ++ arrivals f).
Proof.
  intros Hw Hd.
  destruct (turn_poll h f s w Hw Hd)
    as (s1 & Hturn & Hw1 & [w1 Hd1] & _ & _ & _ & Hq1 & Hhead).
  exists s1. split; [exact Hturn|].
  split; [exact Hq1|]. split; [exact Hhead|].
  intros s2 Hcalls.
  pose proof (run_calls_Ok _ _ _ Hcalls) as (Htr & Hpr & _ & Hqu & _ & Hdisp).
  destruct Hdisp as [w2 Hd2]; [simpl; rewrite Hd1; by eexists|].
  exists w2. split; [exact Hd2|]. split.
  - rewrite Hturn.
    unfold gb_run_frame, RGFW_window_swapBuffers. monad_unfold. rewrite Hcalls.
    rewrite (window_ok s2 w2); [reflexivity| |exact Hd2].
    rewrite Hpr. exact Hw1.
  - rewrite Htr, Hqu. simpl. rewrite Hq1. done.
Qed.

Lemma turn_takes_one_event_witness :
  ∃ s1 : state,
    turn quiet
      {| arrivals := [press RGFW_z; press RGFW_x]; keyboard := λ _, true; calls := [] |}
      narrow_window
    = (gb_run_frame [];; RGFW_window_swapBuffers) s1
    ∧ queue s1 = [press RGFW_x].
Proof.
  destruct (turn_takes_one_event quiet
              {| arrivals := [press RGFW_z; press RGFW_x]; keyboard := λ _, true;
                 calls := [] |}
              narrow_window small_window) as (s1 & Hturn & Hq & _).
  - discriminate.
  - reflexivity.
  - exists s1. split; [exact Hturn | exact Hq].
Defined.

(** C6, as stated, fails: with two events pending, the engine runs its
    frame while the second one is still queued. *)
Lemma turn_leaves_events_queued :
  ¬ (∀ (h : host) (f : frame) (s s' : state),
       turn h f s = Ok tt s' →
       ∀ (seen : gb_s) (unpolled : list RGFW_Event),
         GbRunFrame seen unpolled ∈ trace s' → unpolled = []).
Proof.
  intros Hall.
  assert ([press RGFW_x] = []) as Habs; [|discriminate].
  eapply (Hall quiet
            {| arrivals := [press RGFW_z; press RGFW_x]; keyboard := λ _, true;
               calls := [] |}
            narrow_window _ eq_refl).
  apply list_elem_of_In. cbv. right. left. reflexivity.
Qed.

(** C4, as the source has it: the hot-key switch sits under both
    [case RGFW_keyReleased] and [case RGFW_keyPressed], so a press and a
    release of a key do the same thing: one call of [gb_reset] for the
    reset key, one complement of the flag for the interlace and frame-skip
    keys, nothing for any other key; an event of another type does
    nothing at all, and a turn of the loop with no event to poll reaches
    the engine with [gb] untouched and no call of [gb_reset]. *)
Theorem hotkeys_fire_on_press_and_release (h : host) (k : RGFW_Key) (s : state)
    (w : RGFW_window) :
  win (priv s) ≠ NULL → display s = Some w →
  ∃ s1 s2 : state,
    joypad_update s = Ok tt s1
    ∧ on_event h {| type := RGFW_keyPressed; keyCode := k |} s = Ok tt s2
    ∧ on_event h {| type := RGFW_keyReleased; keyCode := k |} s = Ok tt s2
    ∧ trace s2 = trace s ++ match k with RGFW_r => [GbReset] | _ => [] end
    ∧ gb s2 = match k with
              | RGFW_r => gb_reset h (gb s1)
              | RGFW_i => set_interlace (to_flag h (Z.lnot (interlace (gb s)))) (gb s1)
              | RGFW_o => set_frame_skip (to_flag h (Z.lnot (frame_skip (gb s)))) (gb s1)
              | _ => gb s1
              end
    ∧ (∀ n, on_event h {| type := RGFW_event n; keyCode := k |} s = Ok tt s)
    ∧ (∀ f : frame,
         queue s ++ arrivals f = [] →
         ∃ s0, turn h f s = (gb_run_frame (calls f);; RGFW_window_swapBuffers) s0
               ∧ gb s0 = gb s ∧ trace s0 = trace s ++ [CheckEvent None]).
Proof.
  intros Hw Hd.
  pose proof (joypad_update_ok s w Hw Hd) as Hjoy.
  destruct (hotkeys_ok h k
              (set_gb (set_joypad_bits
                 {| a := negb (held s RGFW_z); b := negb (held s RGFW_x);
                    select := negb (held s RGFW_BackSpace);
                    start := negb (held s RGFW_Return);
                    right := negb (held s RGFW_Right); left := negb (held s RGFW_Left);
                    up := negb (held s RGFW_Up); down := negb (held s RGFW_Down) |}
                 (gb s)) s)) as (s2 & Hrun & Htr & Hgb & _).
  eexists. exists s2. split; [exact Hjoy|].
  split; [|split; [|split; [exact Htr|split; [exact Hgb|split; [reflexivity|]]]]].
  - unfold on_event. simpl. monad_unfold. now rewrite Hjoy.
  - unfold on_event. simpl. monad_unfold. now rewrite Hjoy.
  - intros f Hq.
    destruct (turn_poll h f s w Hw Hd) as (s0 & Hturn & _ & _ & _ & _ & _ & _ & Hhead).
    rewrite Hq in Hhead. exists s0. split; [exact Hturn | exact Hhead].
Qed.

Lemma hotkeys_fire_on_press_and_release_witness :
  ∃ s2 : state,
    on_event quiet (press RGFW_r) narrow_window = Ok tt s2
    ∧ on_event quiet (release RGFW_r) narrow_window = Ok tt s2
    ∧ trace s2 = [GbReset].
Proof.
  destruct (hotkeys_fire_on_press_and_release quiet RGFW_r
              narrow_window small_window) as (s1 & s2 & _ & Hp & Hr & Htr & _).
  - discriminate.
  - reflexivity.
  - exists s2. split; [exact Hp|]. split; [exact Hr | exact Htr].
Defined.

(** C4, as stated, fails: the release of the reset key calls [gb_reset]. *)
Lemma reset_fires_on_release :
  ¬ (∀ (h : host) (k : RGFW_Key) (s s' : state),
       on_event h {| type := RGFW_keyReleased; keyCode := k |} s = Ok tt s' →
       trace s' = trace s).
Proof.
  intros Hall.
  specialize (Hall quiet RGFW_r narrow_window _ eq_refl).
  vm_compute in Hall. discriminate.
Qed.

(** ** The heap and the image loader *)

Lemma block_at_fresh (hp : list block) (blk : block) :
  block_at (hp ++ [blk]) (S (length hp)) = Some blk.
Proof. simpl. now apply list_lookup_middle. Qed.

Lemma block_set_fresh (hp : list block) (blk blk' : block) :
  block_set (hp ++ [blk]) (S (length hp)) blk' = hp ++ [blk'].
Proof.
  simpl. rewrite insert_app_r_alt by lia. now rewrite Nat.sub_diag.
Qed.

Lemma block_at_app (hp : list block) (blk x : block) (p : nat) :
  block_at hp p = Some x → block_at (hp ++ [blk]) p = Some x.
Proof. destruct p as [|i]; simpl; [done|]. apply lookup_app_l_Some. Qed.

Lemma block_at_set_eq (hp : list block) (p : nat) (blk : block) :
  is_Some (block_at hp p) → block_at (block_set hp p blk) p = Some blk.
Proof.
  destruct p as [|i]; simpl; intros [x Hx]; [discriminate|].
  apply list_lookup_insert_eq. by eapply lookup_lt_Some.
Qed.

Lemma block_at_set_ne (hp : list block) (p q : nat) (blk : block) :
  p ≠ q → block_at (block_set hp p blk) q = block_at hp q.
Proof.
  destruct p as [|i], q as [|j]; simpl; try done.
  intros Hne. apply list_lookup_insert_ne. congruence.
Qed.

Lemma malloc_ok (junk : nat → nat → byte) (n : nat) (s : state) :
  malloc junk n s
  = Ok (S (length (heap s)))
      (log (Malloc (S (length (heap s))) n)
         (set_heap (heap s ++ [Live (map (junk (S (length (heap s)))) (seq 0 n))]) s)).
Proof. reflexivity. Qed.

Lemma read_rom_to_ram_open (h : host) (file_name : string) (f : file) (s : state) :
  fs h file_name = Some f →
  let p := S (length (heap s)) in
  let n := length (contents f) in
  read_rom_to_ram h file_name s
  = if decide (n ≤ delivered f)%nat
    then Ok p (log Fclose (set_heap (heap s ++ [Live (contents f)])
                 (log (Malloc p n) (log (Fopen file_name true) s))))
    else Ok NULL (log Fclose (log (Free p) (set_heap (heap s ++ [Freed])
                    (log (Malloc p n) (log (Fopen file_name true) s))))).
Proof.
  intros Hf p n. unfold read_rom_to_ram. rewrite Hf. monad_unfold.
  rewrite malloc_ok. fold n. simpl heap. fold p.
  set (junk := map (uninit h p) (seq 0 n)).
  assert (Hjunk : length junk = n) by (unfold junk; now rewrite length_map, length_seq).
  unfold fread. simpl heap. unfold p at 1. rewrite block_at_fresh.
  destruct (decide (n ≤ length junk)%nat) as [_|Hbad]; [|lia].
  unfold p at 1. rewrite block_set_fresh.
  destruct (decide (n ≤ delivered f)%nat) as [Hfull|Hfull].
  - rewrite Nat.min_l by lia. unfold n. rewrite firstn_all. fold n.
    destruct (decide (n ≠ n)) as [Hbad|_]; [done|].
    rewrite drop_ge by lia. now rewrite app_nil_r.
  - rewrite Nat.min_r by lia.
    assert (Hgot : length (take (delivered f) (contents f)) = delivered f).
    { rewrite length_take. fold n. lia. }
    rewrite Hgot. destruct (decide (delivered f ≠ n)) as [_|Hbad]; [|lia].
    unfold free. fold p. simpl heap. unfold p at 1. rewrite block_at_fresh.
    simpl. unfold p at 1. change (S (length (heap s))) with p.
    replace (<[length (heap s) := Freed]>
               (heap s ++ [Live (take (delivered f) (contents f) ++ drop (delivered f) junk)]))
      with (heap s ++ [Freed]); [reflexivity|].
    rewrite insert_app_r_alt by lia. now rewrite Nat.sub_diag.
Qed.

(** C7: the image load is all or nothing.  A path that cannot be opened
    gives a null pointer and leaves the heap alone; a file that can be read
    in full gives a fresh block that holds exactly the file's bytes; a file
    whose read stops short gives a null pointer, and the block allocated
    for it has been freed, so no live block is left behind. *)
Theorem read_rom_to_ram_all_or_nothing (h : host) (file_name : string) (s : state) :
  (fs h file_name = None →
   read_rom_to_ram h file_name s = Ok NULL (log (Fopen file_name false) s))
  ∧ (∀ f : file,
       fs h file_name = Some f → (length (contents f) ≤ delivered f)%nat →
       ∃ (p : nat) (s' : state),
         read_rom_to_ram h file_name s = Ok p s'
         ∧ p ≠ NULL
         ∧ block_at (heap s) p = None
         ∧ block_at (heap s') p = Some (Live (contents f))
         ∧ heap s' = heap s ++ [Live (contents f)]
         ∧ priv s' = priv s
         ∧ trace s' = trace s ++ [Fopen file_name true;
                                  Malloc p (length (contents f)); Fclose])
  ∧ (∀ f : file,
       fs h file_name = Some f → (delivered f < length (contents f))%nat →
       ∃ (p : nat) (s' : state),
         read_rom_to_ram h file_name s = Ok NULL s'
         ∧ heap s' = heap s ++ [Freed]
         ∧ (∀ q data, block_at (heap s') q = Some (Live data) →
                      block_at (heap s) q = Some (Live data))
         ∧ priv s' = priv s
         ∧ trace s' = trace s ++ [Fopen file_name true;
                                  Malloc p (length (contents f)); Free p; Fclose]).
Proof.
  split; [|split].
  - intros Hf. unfold read_rom_to_ram. now rewrite Hf.
  - intros f Hf Hfull. rewrite (read_rom_to_ram_open h file_name f s Hf).
    rewrite decide_True by exact Hfull.
    eexists. eexists. split; [reflexivity|]. split; [discriminate|].
    split; [simpl; apply lookup_ge_None; lia|].
    split; [apply block_at_fresh|]. split; [reflexivity|]. split; [reflexivity|].
    simpl. now rewrite <- !app_assoc.
  - intros f Hf Hshort. rewrite (read_rom_to_ram_open h file_name f s Hf).
    rewrite decide_False by lia.
    eexists. eexists. split; [reflexivity|]. split; [reflexivity|].
    split; [|split; [reflexivity|simpl; now rewrite <- !app_assoc]].
    intros q data. simpl heap. destruct q as [|i]; simpl; [done|].
    intros Hq. destruct (decide (i < length (heap s))%nat) as [Hlt|Hge].
    + now rewrite lookup_app_l in Hq by exact Hlt.
    + rewrite lookup_app_r in Hq by lia.
      destruct (i - length (heap s))%nat; simpl in Hq; [discriminate|].
      now rewrite lookup_nil in Hq.
Qed.

Lemma read_rom_to_ram_all_or_nothing_witness :
  read_rom_to_ram quiet "none.gb" boot
    = Ok NULL (log (Fopen "none.gb" false) boot)
  ∧ (∃ (p : nat) (s' : state),
       read_rom_to_ram quiet "game.gb" boot = Ok p s'
       ∧ block_at (heap s') p = Some (Live (bytes [1; 2; 3]%N)))
  ∧ (∃ s' : state,
       read_rom_to_ram quiet "torn.gb" boot = Ok NULL s'
       ∧ heap s' = [Freed]).
Proof.
  split; [|split].
  - apply (read_rom_to_ram_all_or_nothing quiet "none.gb" boot).
    reflexivity.
  - destruct (read_rom_to_ram_all_or_nothing quiet "game.gb" boot)
      as (_ & Hfull & _).
    destruct (Hfull {| contents := bytes [1; 2; 3]%N; delivered := 3 |})
      as (p & s' & Hrun & _ & _ & Hblk & _).
    + reflexivity.
    + simpl. lia.
    + exists p, s'. split; [exact Hrun | exact Hblk].
  - destruct (read_rom_to_ram_all_or_nothing quiet "torn.gb" boot)
      as (_ & _ & Hshort).
    destruct (Hshort {| contents := bytes [1; 2; 3]%N; delivered := 1 |})
      as (p & s' & Hrun & Hheap & _).
    + reflexivity.
    + simpl. lia.
    + exists s'. split; [exact Hrun | exact Hheap].
Defined.

(** ** The save-RAM callbacks *)

(** C10: for an address below the save-RAM size, the read callback returns
    the byte at that index of the block behind [priv.cart_ram] and changes
    nothing; the write callback puts its byte at that index and changes no
    other byte, no other block and no field of [priv]; an address at or
    past the size is not caught by either callback: the access is made
    all the same, outside the block. *)
Theorem gb_cart_ram_direct_access (h : host) (s : state) (data : list byte)
    (addr : nat) (val : byte) :
  block_at (heap s) (cart_ram (priv s)) = Some (Live data) →
  length data = gb_get_save_size h →
  (addr < gb_get_save_size h)%nat →
  (∃ v, data !! addr = Some v ∧ gb_cart_ram_read addr s = Ok v s)
  ∧ (∃ s', gb_cart_ram_write addr val s = Ok tt s'
           ∧ block_at (heap s') (cart_ram (priv s')) = Some (Live (<[addr := val]> data))
           ∧ <[addr := val]> data !! addr = Some val
           ∧ (∀ i : nat, i ≠ addr → <[addr := val]> data !! i = data !! i)
           ∧ length (<[addr := val]> data) = gb_get_save_size h
           ∧ (∀ p : nat, p ≠ cart_ram (priv s) →
                block_at (heap s') p = block_at (heap s) p)
           ∧ priv s' = priv s ∧ gb s' = gb s ∧ display s' = display s
           ∧ queue s' = queue s ∧ held s' = held s ∧ trace s' = trace s)
  ∧ (∀ far : nat, (gb_get_save_size h ≤ far)%nat →
       gb_cart_ram_read far s = Undefined ∧ gb_cart_ram_write far val s = Undefined).
Proof.
  intros Hblk Hlen Haddr. rewrite <- Hlen in *.
  unfold gb_cart_ram_read, gb_cart_ram_write, load, store. monad_unfold.
  rewrite Hblk. split; [|split].
  - destruct (lookup_lt_is_Some_2 data addr Haddr) as [v Hv].
    exists v. now rewrite Hv.
  - destruct (decide (addr < length data)%nat) as [_|Hbad]; [|lia].
    eexists. split; [reflexivity|]. simpl.
    split; [apply block_at_set_eq; by rewrite Hblk|].
    split; [now apply list_lookup_insert_eq|].
    split; [intros i Hi; now apply list_lookup_insert_ne|].
    split; [apply length_insert|].
    split; [intros p Hp; now apply block_at_set_ne|]. repeat split.
  - intros far Hfar. rewrite (lookup_ge_None_2 data far) by lia.
    destruct (decide (far < length data)%nat) as [Hbad|_]; [lia|]. done.
Qed.

Lemma gb_cart_ram_direct_access_witness :
  (∃ v, bytes [170; 170]%N !! 1%nat = Some v ∧ gb_cart_ram_read 1 loaded = Ok v loaded)
  ∧ gb_cart_ram_read 2 loaded = Undefined.
Proof.
  destruct (gb_cart_ram_direct_access quiet loaded
              (bytes [170; 170]%N) 1 Byte.x07) as (Hread & _ & Hfar).
  - reflexivity.
  - reflexivity.
  - simpl. lia.
  - split; [exact Hread|]. apply (Hfar 2%nat). simpl. lia.
Defined.

(** ** The fatal error handler *)

Lemma hex_digit_inj (x y : Z) :
  0 ≤ x < 16 → 0 ≤ y < 16 → hex_digit x = hex_digit y → x = y.
Proof.
  intros Hx Hy.
  assert (Hxs : x = 0 ∨ x = 1 ∨ x = 2 ∨ x = 3 ∨ x = 4 ∨ x = 5 ∨ x = 6 ∨ x = 7
                ∨ x = 8 ∨ x = 9 ∨ x = 10 ∨ x = 11 ∨ x = 12 ∨ x = 13 ∨ x = 14 ∨ x = 15)
    by lia.
  assert (Hys : y = 0 ∨ y = 1 ∨ y = 2 ∨ y = 3 ∨ y = 4 ∨ y = 5 ∨ y = 6 ∨ y = 7
                ∨ y = 8 ∨ y = 9 ∨ y = 10 ∨ y = 11 ∨ y = 12 ∨ y = 13 ∨ y = 14 ∨ y = 15)
    by lia.
  repeat (destruct Hxs as [-> | Hxs]); try subst x;
    repeat (destruct Hys as [-> | Hys]); try subst y;
    simpl; intros Heq; first [reflexivity | discriminate Heq].
Qed.

Lemma fmt_04X_inj (x y : Z) :
  0 ≤ x < 2 ^ 16 → 0 ≤ y < 2 ^ 16 → fmt_04X x = fmt_04X y → x = y.
Proof.
  intros Hx Hy Heq. unfold fmt_04X in Heq.
  injection Heq as H3 H2 H1 H0.
  apply hex_digit_inj in H3, H2, H1, H0;
    try (apply Z.mod_pos_bound; lia).
  change (2 ^ 16) with 65536 in *. Z.div_mod_to_equations. lia.
Qed.

Lemma gb_error_message_inj (e1 e2 : gb_error_e) (n1 n2 : string) (v1 v2 : Z) :
  gb_err_str !! Z.to_nat (gb_error_code e1) = Some n1 →
  gb_err_str !! Z.to_nat (gb_error_code e2) = Some n2 →
  gb_error_message (gb_error_code e1) n1 v1 = gb_error_message (gb_error_code e2) n2 v2 →
  e1 = e2 ∧ u16 v1 = u16 v2.
Proof.
  intros H1 H2 Heq. unfold gb_error_message in Heq.
  assert (Hhex : ∀ t, fmt_04X (u16 v1) +:+ t = fmt_04X (u16 v2) +:+ t → u16 v1 = u16 v2).
  { intros t Ht. apply fmt_04X_inj; try (apply Z.mod_pos_bound; lia).
    unfold fmt_04X in *. simpl in Ht. injection Ht as -> -> -> ->. reflexivity. }
  remember (fmt_04X (u16 v1)) as x1 eqn:Hx1.
  remember (fmt_04X (u16 v2)) as x2 eqn:Hx2.
  destruct e1, e2; simpl in H1, H2; injection H1 as <-; injection H2 as <-;
    cbn in Heq; try discriminate Heq;
    (split; [reflexivity|]); injection Heq as Heq; exact (Hhex _ Heq).
Qed.

Lemma free_live (p : nat) (s : state) (data : list byte) :
  block_at (heap s) p = Some (Live data) →
  free p s = Ok tt (log (Free p) (set_heap (block_set (heap s) p Freed) s)).
Proof.
  intros Hblk. unfold free. destruct p as [|i]; [discriminate|]. now rewrite Hblk.
Qed.

Lemma gb_error_exits (s : state) (gb_err : gb_error_e) (val : Z)
    (image ram : list byte) :
  block_at (heap s) (rom (priv s)) = Some (Live image) →
  block_at (heap s) (cart_ram (priv s)) = Some (Live ram) →
  rom (priv s) ≠ cart_ram (priv s) →
  ∃ name : string,
    gb_err_str !! Z.to_nat (gb_error_code gb_err) = Some name
    ∧ gb_error gb_err val s
      = Exited EXIT_FAILURE
          (log (Exit EXIT_FAILURE)
             (log (Free (rom (priv s)))
                (set_heap (block_set (block_set (heap s) (cart_ram (priv s)) Freed)
                             (rom (priv s)) Freed)
                   (log (Free (cart_ram (priv s)))
                      (log (Stderr (gb_error_message (gb_error_code gb_err) name val))
                         s))))).
Proof.
  intros Hrom Hram Hne.
  assert (Hname : ∃ name, gb_err_str !! Z.to_nat (gb_error_code gb_err) = Some name)
    by (destruct gb_err; eexists; reflexivity).
  destruct Hname as [name Hname]. exists name. split; [exact Hname|].
  unfold gb_error. monad_unfold. rewrite Hname.
  set (s1 := log (Stderr (gb_error_message (gb_error_code gb_err) name val)) s).
  rewrite (free_live (cart_ram (priv s)) s1 ram) by exact Hram.
  set (s2 := log (Free (cart_ram (priv s)))
               (set_heap (block_set (heap s1) (cart_ram (priv s)) Freed) s1)).
  assert (Hrom2 : block_at (heap s2) (rom (priv s)) = Some (Live image)).
  { simpl. rewrite block_at_set_ne by congruence. exact Hrom. }
  now rewrite (free_live (rom (priv s)) s2 image) by exact Hrom2.
Qed.

(** C9: the handler never returns, whatever the state; called with a live
    image and a live save RAM it writes one diagnostic to standard error,
    from which the error kind and the 16-bit value can be read back, frees
    the save RAM, then the image, and exits with a failure status; the
    window is not closed. *)
Theorem gb_error_contract (s : state) (gb_err : gb_error_e) (val : Z)
    (image ram : list byte) :
  block_at (heap s) (rom (priv s)) = Some (Live image) →
  block_at (heap s) (cart_ram (priv s)) = Some (Live ram) →
  rom (priv s) ≠ cart_ram (priv s) →
  (∀ (s0 s0' : state) (u : unit), gb_error gb_err val s0 ≠ Ok u s0')
  ∧ ∃ (name : string) (s' : state),
      gb_err_str !! Z.to_nat (gb_error_code gb_err) = Some name
      ∧ gb_error gb_err val s = Exited EXIT_FAILURE s'
      ∧ EXIT_FAILURE ≠ EXIT_SUCCESS
      ∧ trace s' = trace s ++ [Stderr (gb_error_message (gb_error_code gb_err) name val);
                               Free (cart_ram (priv s)); Free (rom (priv s));
                               Exit EXIT_FAILURE]
      ∧ (∀ (e2 : gb_error_e) (name2 : string) (val2 : Z),
           gb_err_str !! Z.to_nat (gb_error_code e2) = Some name2 →
           gb_error_message (gb_error_code e2) name2 val2
             = gb_error_message (gb_error_code gb_err) name val →
           e2 = gb_err ∧ u16 val2 = u16 val)
      ∧ block_at (heap s') (cart_ram (priv s)) = Some Freed
      ∧ block_at (heap s') (rom (priv s)) = Some Freed
      ∧ (∀ p : nat, p ≠ cart_ram (priv s) → p ≠ rom (priv s) →
           block_at (heap s') p = block_at (heap s) p)
      ∧ priv s' = priv s
      ∧ display s' = display s.
Proof.
  intros Hrom Hram Hne. split; [intros s0 s0' u; apply gb_error_never_returns|].
  destruct (gb_error_exits s gb_err val image ram Hrom Hram Hne) as (name & Hname & Hrun).
  exists name. eexists. split; [exact Hname|]. split; [exact Hrun|].
  split; [discriminate|].
  split; [simpl; now rewrite <- !app_assoc|].
  split; [intros e2 name2 val2 Hn2 Heq; now apply (gb_error_message_inj _ _ _ _ _ _ Hn2 Hname)|].
  simpl. split.
  { rewrite block_at_set_ne by exact Hne. apply block_at_set_eq. by rewrite Hram. }
  split.
  { apply block_at_set_eq. rewrite block_at_set_ne by congruence. by rewrite Hrom. }
  split; [|done].
  intros p Hp1 Hp2. rewrite !block_at_set_ne by congruence. reflexivity.
Qed.

Lemma gb_error_contract_witness :
  ∃ s' : state,
    gb_error GB_INVALID_WRITE 0xBEEF loaded = Exited EXIT_FAILURE s'
    ∧ trace s' = [Stderr ("Error 3 occurred: INVALID WRITE at BEEF" +:+ nl
                            +:+ ". Exiting." +:+ nl);
                  Free 2; Free 1; Exit EXIT_FAILURE]
    ∧ display s' = display loaded.
Proof.
  destruct (gb_error_contract loaded GB_INVALID_WRITE 0xBEEF
              (bytes [1; 2; 3]%N) (bytes [170; 170]%N))
    as (_ & name & s' & Hname & Hrun & _ & Htr & _ & _ & _ & _ & _ & Hdisp).
  - reflexivity.
  - reflexivity.
  - discriminate.
  - exists s'. split; [exact Hrun|]. split; [|exact Hdisp].
    injection Hname as <-. exact Htr.
Defined.

(** ** [main] *)

(** C8, as the source has it: with a program name and any number of
    further arguments other than one, [main] prints the usage line to
    standard error and exits with a failure status before the image or the
    save RAM is allocated; the window, which [main] creates in its first
    statement, exists by then and is not closed on this path. *)
Theorem main_argument_error (h : host) (prog : string) (args : list string) :
  argv h = prog :: args → length args ≠ 1%nat →
  ∃ s' : state,
    run h = Exited EXIT_FAILURE s'
    ∧ EXIT_FAILURE ≠ EXIT_SUCCESS
    ∧ trace s' = [CreateWindow; Stderr (prog +:+ " ROM" +:+ nl); Exit EXIT_FAILURE]
    ∧ heap s' = []
    ∧ rom (priv s') = NULL ∧ cart_ram (priv s') = NULL
    ∧ is_Some (display s').
Proof.
  intros Hargv Hlen. unfold run, main, RGFW_createWindow. monad_unfold.
  rewrite Hargv. destruct args as [|rom_file_name [|more rest]]; [|done|];
    simpl; eexists; (split; [reflexivity|]);
    (split; [discriminate|]); repeat split; by eexists.
Qed.

Lemma main_argument_error_witness :
  ∃ s' : state,
    run (desk ["peanut"; "game.gb"; "extra"] GB_INIT_NO_ERROR []) = Exited EXIT_FAILURE s'
    ∧ trace s' = [CreateWindow; Stderr ("peanut ROM" +:+ nl); Exit EXIT_FAILURE].
Proof.
  destruct (main_argument_error (desk ["peanut"; "game.gb"; "extra"] GB_INIT_NO_ERROR [])
              "peanut" ["game.gb"; "extra"]) as (s' & Hrun & _ & Htr & _).
  - reflexivity.
  - simpl. lia.
  - exists s'. split; [exact Hrun | exact Htr].
Defined.

(** C8, as stated, fails: on the argument-error path a window has been
    created and is still open when the process exits. *)
Lemma main_argument_error_leaves_window :
  ¬ (∀ (h : host) (prog : string) (args : list string),
       argv h = prog :: args → length args ≠ 1%nat →
       ∃ s' : state,
         run h = Exited EXIT_FAILURE s'
         ∧ (CreateWindow ∉ trace s') ∧ display s' = None).
Proof.
  intros Hall.
  destruct (Hall (desk ["peanut"] GB_INIT_NO_ERROR []) "peanut" [])
    as (s' & Hrun & _ & Hclosed); [reflexivity | simpl; lia |].
  vm_compute in Hrun. injection Hrun as <-. discriminate Hclosed.
Qed.

(** C5 fails on the initialisation-error path: the image has been loaded
    when [gb_init] reports an error, and [main] exits without freeing
    it. *)
Lemma main_init_error_keeps_rom :
  ∃ s' : state,
    run (desk ["peanut"; "game.gb"] (GB_INIT_error 2) []) = Exited EXIT_FAILURE s'
    ∧ rom (priv s') = 1%nat
    ∧ block_at (heap s') (rom (priv s')) = Some (Live (bytes [1; 2; 3]%N))
    ∧ trace s' = [CreateWindow; Fopen "game.gb" true; Malloc 1 3; Fclose; GbInit (GB_INIT_error 2);
                  Stdout ("Error: 2" +:+ nl); Exit EXIT_FAILURE].
Proof. eexists. split; [vm_compute; reflexivity|]. repeat split. Qed.

(** ** The buffers along a run *)

Lemma load_cases (p addr : nat) (s : state) :
  load p addr s = Undefined ∨ ∃ v, load p addr s = Ok v s.
Proof.
  unfold load. destruct (block_at (heap s) p) as [[data|]|]; auto.
  destruct (data !! addr); eauto.
Qed.

Lemma store_cases (p addr : nat) (val : byte) (s : state) :
  store p addr val s = Undefined
  ∨ ∃ data, block_at (heap s) p = Some (Live data)
            ∧ store p addr val s
              = Ok tt (set_heap (block_set (heap s) p (Live (<[addr := val]> data))) s).
Proof.
  unfold store. destruct (block_at (heap s) p) as [[data|]|]; auto.
  case_decide; eauto.
Qed.

Lemma lcd_draw_line_cases (pixels : list byte) (line : Z) (s : state) :
  lcd_draw_line pixels line s = Undefined
  ∨ ∃ w fb, lcd_draw_line pixels line s = Ok tt (set_display (Some (set_buffer fb w)) s).
Proof.
  unfold lcd_draw_line, window. monad_unfold.
  destruct (win (priv s)), (display s); auto.
  destruct draw_columns; eauto.
Qed.

Lemma running_log (h : host) (x : action) (s : state) :
  (∀ p, x ≠ Free p) → running h s → running h (log x s).
Proof.
  intros Hx (image & ram & H1 & H2 & H3 & H4 & H5 & H6 & H7).
  exists image, ram. simpl. rewrite frees_app, H7.
  repeat split; try assumption. destruct x; try reflexivity. now destruct (Hx p).
Qed.

Lemma settled_bind {A B : Type} (h : host) (m : M A) (k : A → M B) (s : state) :
  settled h (m s) →
  (∀ x s', running h s' → settled h (k x s')) →
  settled h ((m ≫= k) s).
Proof.
  intros Hm Hk. monad_unfold. destruct (m s) as [x s'| |]; simpl in *; auto.
Qed.

Lemma dispatch_settled (h : host) (c : callback) (s : state) :
  running h s → settled h (dispatch c s).
Proof.
  intros Hrun. pose proof Hrun as (image & ram & Hheap & Hrom & Hram & Hlen & Hw & Hd & Hfr).
  destruct c as [addr|addr|addr val|pixels line|gb_err val]; simpl.
  - unfold gb_rom_read. monad_unfold.
    destruct (load_cases (rom (priv s)) addr s) as [-> | [v ->]]; simpl; auto.
  - unfold gb_cart_ram_read. monad_unfold.
    destruct (load_cases (cart_ram (priv s)) addr s) as [-> | [v ->]]; simpl; auto.
  - unfold gb_cart_ram_write. monad_unfold.
    destruct (store_cases (cart_ram (priv s)) addr val s) as [-> | (data & Hblk & ->)];
      simpl; [done|].
    rewrite Hram, Hheap in *. simpl in Hblk. injection Hblk as <-.
    exists image, (<[addr := val]> ram). simpl. rewrite length_insert. auto 10.
  - destruct (lcd_draw_line_cases pixels line s) as [-> | (w & fb & ->)]; simpl; [done|].
    exists image, ram. simpl. repeat split; try assumption. by eexists.
  - destruct (gb_error_exits s gb_err val image ram) as (name & _ & ->).
    + now rewrite Hrom, Hheap.
    + now rewrite Hram, Hheap.
    + congruence.
    + simpl. rewrite Hrom, Hram, Hheap. simpl.
      rewrite !frees_app, Hfr. repeat split.
Qed.

Lemma run_calls_settled (h : host) (cs : list callback) :
  ∀ s, running h s → settled h (run_calls cs s).
Proof.
  induction cs as [|c cs IH]; intros s Hrun; simpl; [exact Hrun|].
  apply settled_bind; [now apply dispatch_settled | intros _ s'; apply IH].
Qed.

Lemma turn_settled (h : host) (f : frame) (s : state) :
  running h s → settled h (turn h f s).
Proof.
  intros (image & ram & Hheap & Hrom & Hram & Hlen & Hw & [w Hd] & Hfr).
  destruct (turn_poll h f s w Hw Hd) as (s1 & -> & Hw1 & Hd1 & Hh1 & Hp1 & Hf1 & _).
  assert (Hrun1 : running h s1).
  { exists image, ram. rewrite Hh1, Hp1, Hf1. auto 10. }
  apply settled_bind.
  - unfold gb_run_frame. monad_unfold. apply run_calls_settled.
    now apply running_log.
  - intros _ s2 Hrun2. unfold RGFW_window_swapBuffers, window. monad_unfold.
    pose proof Hrun2 as (_ & _ & _ & _ & _ & _ & Hw2 & [w2 Hd2] & _).
    destruct (win (priv s2)); [done|]. rewrite Hd2. simpl.
    now apply running_log.
Qed.

Lemma main_loop_settled (h : host) (turns : list frame) :
  ∀ s, running h s → settled h (main_loop h turns s).
Proof.
  induction turns as [|f turns IH]; intros s Hrun; simpl; [exact Hrun|].
  apply settled_bind; [now apply turn_settled | intros _ s'; apply IH].
Qed.

(** The four ways [setup] ends, from a state in which nothing has been
    allocated: the image cannot be opened, its read stops short, [gb_init]
    rejects it, or the main loop can start. *)
Lemma setup_cases (h : host) (rom_file_name : string) (s : state) :
  heap s = [] → frees (trace s) = [] → win (priv s) ≠ NULL → is_Some (display s) →
  match fs h rom_file_name with
  | None =>
      ∃ s', setup h rom_file_name s = Exited EXIT_FAILURE s'
            ∧ heap s' = [] ∧ frees (trace s') = []
  | Some f =>
      if decide (length (contents f) ≤ delivered f)%nat
      then match gb_init_ret h with
           | GB_INIT_NO_ERROR =>
               ∃ s', setup h rom_file_name s = Ok tt s' ∧ running h s'
                     ∧ heap s' = [Live (contents f);
                                  Live (map (uninit h 2) (seq 0 (gb_get_save_size h)))]
           | _ =>
               ∃ s', setup h rom_file_name s = Exited EXIT_FAILURE s'
                     ∧ heap s' = [Live (contents f)] ∧ frees (trace s') = []
           end
      else ∃ s', setup h rom_file_name s = Exited EXIT_FAILURE s'
                 ∧ heap s' = [Freed] ∧ frees (trace s') = [1%nat]
  end.
Proof.
  intros Hheap Hfr Hw [w Hd].
  destruct (fs h rom_file_name) as [f|] eqn:Hf.
  - pose proof (read_rom_to_ram_open h rom_file_name f s Hf) as Hload.
    rewrite Hheap in Hload. simpl in Hload.
    destruct (decide (length (contents f) ≤ delivered f)%nat) as [Hfull|Hshort].
    + destruct (gb_init_ret h) eqn:Hret.
      * eexists. split; [|split].
        -- unfold setup. monad_unfold. rewrite Hload, Hret. simpl.
           unfold window. simpl. rewrite Hd.
           destruct (win (priv s)) eqn:Hwin; [done|]. reflexivity.
        -- eexists _, _. simpl. rewrite !frees_app, Hfr, length_map, length_seq.
           repeat split; [exact Hw | by eexists].
        -- reflexivity.
      * eexists. split.
        -- unfold setup. monad_unfold. rewrite Hload, Hret. reflexivity.
        -- simpl. now rewrite !frees_app, Hfr.
    + eexists. split.
      * unfold setup. monad_unfold. rewrite Hload. reflexivity.
      * simpl. now rewrite !frees_app, Hfr.
  - eexists. split.
    + unfold setup, read_rom_to_ram. rewrite Hf. monad_unfold. reflexivity.
    + simpl. now rewrite Hheap, !frees_app, Hfr.
Qed.

(** X15: the buffers at the end of a run started with one positional
    argument: every way out frees what it allocated, once, except the exit
    taken when [gb_init] reports an error, which leaves the image live. *)
Lemma run_buffers_at_exit (h : host) (prog rom_file_name : string)
    (code : Z) (s' : state) :
  argv h = [prog; rom_file_name] →
  run h = Exited code s' →
  match fs h rom_file_name with
  | None => code = EXIT_FAILURE ∧ heap s' = [] ∧ frees (trace s') = []
  | Some f =>
      if decide (length (contents f) ≤ delivered f)%nat
      then match gb_init_ret h with
           | GB_INIT_NO_ERROR =>
               heap s' = [Freed; Freed] ∧ frees (trace s') = [2; 1]%nat
           | _ =>
               code = EXIT_FAILURE ∧ heap s' = [Live (contents f)]
               ∧ frees (trace s') = []
           end
      else code = EXIT_FAILURE ∧ heap s' = [Freed] ∧ frees (trace s') = [1%nat]
  end.
Proof.
  intros Hargv. unfold run, main, RGFW_createWindow. rewrite Hargv.
  unfold mbind at 1 2 3 4 5. monad_unfold. simpl.
  set (s0 := set_priv _ _).
  pose proof (setup_cases h rom_file_name s0 eq_refl eq_refl) as Hsetup.
  destruct (fs h rom_file_name) as [f|].
  - destruct (decide (length (contents f) ≤ delivered f)%nat).
    + destruct (gb_init_ret h).
      * destruct Hsetup as (s1 & -> & Hrun1 & _); [discriminate | by eexists |].
        pose proof (main_loop_settled h (frames h) s1 Hrun1) as Hloop.
        destruct (main_loop h (frames h) s1) as [[] s2|c s2|]; simpl in Hloop.
        -- destruct Hloop as (image & ram & Hheap & Hrom & Hram & _ & Hw2 & [w2 Hd2] & Hfr).
           unfold RGFW_window_close, window. monad_unfold.
           destruct (win (priv s2)); [done|]. rewrite Hd2. simpl.
           unfold free. simpl. rewrite Hram, Hrom, Hheap. simpl.
           intros [= <- <-]. simpl. now rewrite !frees_app, Hfr.
        -- destruct Hloop as (-> & Hheap & Hfr). now intros [= <- <-].
        -- discriminate.
      * destruct Hsetup as (s1 & -> & Hheap & Hfr); [discriminate | by eexists |].
        now intros [= <- <-].
    + destruct Hsetup as (s1 & -> & Hheap & Hfr); [discriminate | by eexists |].
      now intros [= <- <-].
  - destruct Hsetup as (s1 & -> & Hheap & Hfr); [discriminate | by eexists |].
    now intros [= <- <-].
Qed.

(** ** Whole runs *)

(** A run that ends with the window closed by the user: both buffers are
    freed once, after the window is closed, and the status is success. *)
Example run_graceful_close :
  ∃ s' : state,
    run (desk ["peanut"; "game.gb"] GB_INIT_NO_ERROR
           [{| arrivals := [press RGFW_z]; keyboard := λ _, false;
               calls := [call_cart_ram_write 1 Byte.x07;
                         call_lcd_draw_line (bytes [0; 1]%N) 1] |}])
      = Exited EXIT_SUCCESS s'
    ∧ heap s' = [Freed; Freed]
    ∧ frees (trace s') = [2; 1]%nat
    ∧ display s' = None.
Proof. eexists. split; [vm_compute; reflexivity|]. repeat split. Qed.

(** A run that ends in the fatal error handler: both buffers are freed
    once, the window stays, and the status is failure. *)
Example run_fatal_error :
  ∃ s' : state,
    run (desk ["peanut"; "game.gb"] GB_INIT_NO_ERROR
           [{| arrivals := []; keyboard := λ _, false;
               calls := [call_error GB_INVALID_READ 0x1234;
                         call_cart_ram_read 0] |}])
      = Exited EXIT_FAILURE s'
    ∧ heap s' = [Freed; Freed]
    ∧ frees (trace s') = [2; 1]%nat
    ∧ is_Some (display s').
Proof. eexists. split; [vm_compute; reflexivity|]. repeat split. by eexists. Qed.

(** The reset key pressed in one turn and released in the next: the
    engine is reset in both turns. *)
Example run_reset_twice :
  ∃ s' : state,
    run (desk ["peanut"; "game.gb"] GB_INIT_NO_ERROR
           [{| arrivals := [press RGFW_r]; keyboard := λ _, false; calls := [] |};
            {| arrivals := [release RGFW_r]; keyboard := λ _, false; calls := [] |}])
      = Exited EXIT_SUCCESS s'
    ∧ resets (trace s') = 2%nat.
Proof. eexists. split; [vm_compute; reflexivity|]. reflexivity. Qed.

(** * Further properties *)

(** ** The image and the save RAM as the engine sees them *)

Lemma setup_Ok (h : host) (rom_file_name : string) (f : file) (s : state) :
  heap s = [] → frees (trace s) = [] → win (priv s) ≠ NULL → is_Some (display s) →
  fs h rom_file_name = Some f → (length (contents f) ≤ delivered f)%nat →
  gb_init_ret h = GB_INIT_NO_ERROR →
  ∃ s', setup h rom_file_name s = Ok tt s' ∧ running h s'
        ∧ heap s' = [Live (contents f);
                     Live (map (uninit h 2) (seq 0 (gb_get_save_size h)))].
Proof.
  intros Hheap Hfr Hw Hd Hf Hfull Hret.
  pose proof (setup_cases h rom_file_name s Hheap Hfr Hw Hd) as Hcases.
  rewrite Hf, Hret in Hcases. now rewrite decide_True in Hcases by exact Hfull.
Qed.

(** X1: once [setup] has returned, the ROM callback reads the image file
    back byte for byte: an address inside the file gives the byte the file
    has there, an address at or past its end is an access outside the
    block. *)
Theorem gb_rom_read_after_setup (h : host) (rom_file_name : string) (f : file)
    (s : state) :
  heap s = [] → frees (trace s) = [] → win (priv s) ≠ NULL → is_Some (display s) →
  fs h rom_file_name = Some f → (length (contents f) ≤ delivered f)%nat →
  gb_init_ret h = GB_INIT_NO_ERROR →
  ∃ s', setup h rom_file_name s = Ok tt s'
        ∧ ∀ addr : nat,
            gb_rom_read addr s' = match contents f !! addr with
                                  | Some v => Ok v s'
                                  | None => Undefined
                                  end.
Proof.
  intros Hheap Hfr Hw Hd Hf Hfull Hret.
  destruct (setup_Ok h rom_file_name f s) as (s' & Hrun & Hinv & Hheap'); try done.
  exists s'. split; [exact Hrun|]. intros addr.
  destruct Hinv as (image & ram & _ & Hrom & _).
  unfold gb_rom_read, load. monad_unfold. now rewrite Hrom, Hheap'.
Qed.

Lemma gb_rom_read_after_setup_witness :
  ∃ s', setup (desk [] GB_INIT_NO_ERROR []) "game.gb" at_setup = Ok tt s'
        ∧ gb_rom_read 1 s' = Ok Byte.x02 s'
        ∧ gb_rom_read 3 s' = Undefined.
Proof.
  destruct (gb_rom_read_after_setup (desk [] GB_INIT_NO_ERROR []) "game.gb"
              {| contents := bytes [1; 2; 3]%N; delivered := 3 |} at_setup)
    as (s' & Hrun & Hread).
  - reflexivity.
  - reflexivity.
  - discriminate.
  - by eexists.
  - reflexivity.
  - simpl. lia.
  - reflexivity.
  - exists s'. split; [exact Hrun|]. split; [apply (Hread 1%nat) | apply (Hread 3%nat)].
Defined.

(** X2: the save RAM comes from [malloc] and is not cleared: until the
    engine writes to an address, the read callback returns there whatever
    the fresh block held. *)
Theorem gb_cart_ram_read_after_setup (h : host) (rom_file_name : string) (f : file)
    (s : state) :
  heap s = [] → frees (trace s) = [] → win (priv s) ≠ NULL → is_Some (display s) →
  fs h rom_file_name = Some f → (length (contents f) ≤ delivered f)%nat →
  gb_init_ret h = GB_INIT_NO_ERROR →
  ∃ s', setup h rom_file_name s = Ok tt s'
        ∧ ∀ addr : nat,
            gb_cart_ram_read addr s'
            = if decide (addr < gb_get_save_size h)%nat
              then Ok (uninit h 2 addr) s'
              else Undefined.
Proof.
  intros Hheap Hfr Hw Hd Hf Hfull Hret.
  destruct (setup_Ok h rom_file_name f s) as (s' & Hrun & Hinv & Hheap'); try done.
  exists s'. split; [exact Hrun|]. intros addr.
  destruct Hinv as (image & ram & _ & _ & Hram & _).
  unfold gb_cart_ram_read, load. monad_unfold. rewrite Hram, Hheap'. simpl.
  rewrite list_lookup_fmap. case_decide as Haddr.
  - now rewrite lookup_seq_lt.
  - now rewrite lookup_seq_ge by lia.
Qed.

Lemma gb_cart_ram_read_after_setup_witness :
  ∃ s', setup (desk [] GB_INIT_NO_ERROR []) "game.gb" at_setup = Ok tt s'
        ∧ gb_cart_ram_read 1 s' = Ok Byte.xaa s'.
Proof.
  destruct (gb_cart_ram_read_after_setup (desk [] GB_INIT_NO_ERROR []) "game.gb"
              {| contents := bytes [1; 2; 3]%N; delivered := 3 |} at_setup)
    as (s' & Hrun & Hread).
  - reflexivity.
  - reflexivity.
  - discriminate.
  - by eexists.
  - reflexivity.
  - simpl. lia.
  - reflexivity.
  - exists s'. split; [exact Hrun | apply (Hread 1%nat)].
Defined.

(** X3: what the write callback stores, the read callback returns: after
    a write inside the save RAM, a read of the same address gives the byte
    written, a read of any other address gives what it gave before, and so
    does every read of the image. *)
Theorem gb_cart_ram_write_then_read (s : state) (data : list byte)
    (addr : nat) (val : byte) :
  block_at (heap s) (cart_ram (priv s)) = Some (Live data) →
  rom (priv s) ≠ cart_ram (priv s) →
  (addr < length data)%nat →
  ∃ s', gb_cart_ram_write addr val s = Ok tt s'
        ∧ gb_cart_ram_read addr s' = Ok val s'
        ∧ (∀ (other : nat) (v : byte),
             other ≠ addr → gb_cart_ram_read other s = Ok v s →
             gb_cart_ram_read other s' = Ok v s')
        ∧ (∀ (other : nat), gb_cart_ram_read other s = Undefined →
             gb_cart_ram_read other s' = Undefined)
        ∧ (∀ (a : nat) (v : byte), gb_rom_read a s = Ok v s → gb_rom_read a s' = Ok v s').
Proof.
  intros Hblk Hne Haddr.
  unfold gb_cart_ram_write, gb_cart_ram_read, gb_rom_read, store, load. monad_unfold.
  rewrite Hblk. destruct (decide (addr < length data)%nat) as [_|Hbad]; [|lia].
  eexists. split; [reflexivity|]. simpl.
  rewrite block_at_set_eq by (by rewrite Hblk).
  rewrite block_at_set_ne by congruence.
  split; [now rewrite list_lookup_insert_eq|].
  split; [|split].
  - intros other v Hother. rewrite list_lookup_insert_ne by congruence.
    destruct (data !! other); [|discriminate]. now intros [= ->].
  - intros other. destruct (decide (other = addr)) as [->|Hother].
    + destruct (lookup_lt_is_Some_2 data addr Haddr) as [v ->]. discriminate.
    + rewrite list_lookup_insert_ne by congruence.
      now destruct (data !! other).
  - intros a v. destruct (block_at (heap s) (rom (priv s))) as [[image|]|]; try discriminate.
    destruct (image !! a); [|discriminate]. now intros [= ->].
Qed.

Lemma gb_cart_ram_write_then_read_witness :
  ∃ s', gb_cart_ram_write 1 Byte.x07 loaded = Ok tt s'
        ∧ gb_cart_ram_read 1 s' = Ok Byte.x07 s'.
Proof.
  destruct (gb_cart_ram_write_then_read loaded (bytes [170; 170]%N) 1 Byte.x07)
    as (s' & Hw & Hr & _).
  - reflexivity.
  - discriminate.
  - simpl. lia.
  - exists s'. split; [exact Hw | exact Hr].
Defined.

(** X4: of two writes to the same address of the save RAM the later one
    wins, and two writes to different addresses can be made in either
    order. *)
Theorem gb_cart_ram_writes_compose (s : state) (data : list byte)
    (addr1 addr2 : nat) (val1 val2 : byte) :
  block_at (heap s) (cart_ram (priv s)) = Some (Live data) →
  (addr1 < length data)%nat → (addr2 < length data)%nat →
  (gb_cart_ram_write addr1 val1;; gb_cart_ram_write addr1 val2) s
    = gb_cart_ram_write addr1 val2 s
  ∧ (addr1 ≠ addr2 →
     (gb_cart_ram_write addr1 val1;; gb_cart_ram_write addr2 val2) s
     = (gb_cart_ram_write addr2 val2;; gb_cart_ram_write addr1 val1) s).
Proof.
  intros Hblk H1 H2.
  assert (Hset : ∀ d d', block_set (block_set (heap s) (cart_ram (priv s)) (Live d))
                           (cart_ram (priv s)) (Live d')
                         = block_set (heap s) (cart_ram (priv s)) (Live d')).
  { intros d d'. destruct (cart_ram (priv s)) as [|i]; [done|].
    simpl. apply list_insert_insert_eq. }
  assert (Hstep : ∀ a v d, (a < length d)%nat →
            ∀ s0, block_at (heap s0) (cart_ram (priv s0)) = Some (Live d) →
            gb_cart_ram_write a v s0
            = Ok tt (set_heap (block_set (heap s0) (cart_ram (priv s0))
                                 (Live (<[a := v]> d))) s0)).
  { intros a v d Ha s0 Hs0. unfold gb_cart_ram_write, store. monad_unfold.
    rewrite Hs0. now rewrite decide_True by exact Ha. }
  assert (Hafter : ∀ d, block_at (heap (set_heap (block_set (heap s) (cart_ram (priv s))
                                                   (Live d)) s))
                          (cart_ram (priv s)) = Some (Live d)).
  { intros d. simpl. apply block_at_set_eq. by rewrite Hblk. }
  split.
  - unfold mbind, M_bind. rewrite (Hstep addr1 val1 data H1 s Hblk).
    rewrite (Hstep addr1 val2 (<[addr1 := val1]> data)); [| by rewrite length_insert | apply Hafter].
    rewrite (Hstep addr1 val2 data H1 s Hblk). simpl.
    now rewrite Hset, list_insert_insert_eq.
  - intros Hne. unfold mbind, M_bind.
    rewrite (Hstep addr1 val1 data H1 s Hblk), (Hstep addr2 val2 data H2 s Hblk).
    rewrite (Hstep addr2 val2 (<[addr1 := val1]> data)); [| by rewrite length_insert | apply Hafter].
    rewrite (Hstep addr1 val1 (<[addr2 := val2]> data)); [| by rewrite length_insert | apply Hafter].
    simpl. rewrite !Hset. now rewrite list_insert_insert_ne by congruence.
Qed.

Lemma gb_cart_ram_writes_compose_witness :
  (gb_cart_ram_write 0 Byte.x01;; gb_cart_ram_write 0 Byte.x02) loaded
    = gb_cart_ram_write 0 Byte.x02 loaded.
Proof.
  apply (gb_cart_ram_writes_compose loaded (bytes [170; 170]%N) 0 1 Byte.x01 Byte.x02).
  - reflexivity.
  - simpl. lia.
  - simpl. lia.
Defined.

(** ** The scanline renderer at its bounds *)

Lemma draw_columns_short (todo : nat) :
  ∀ (x stride line : Z) (pixels : list byte) (fb : list Z),
    0 ≤ x ≤ Z.of_nat (length pixels) →
    Z.of_nat (length pixels) < x + Z.of_nat todo →
    draw_columns todo x stride line pixels fb = None.
Proof.
  induction todo as [|todo IH]; intros x stride line pixels fb Hx Hshort; [lia|].
  simpl. destruct (pixels !! Z.to_nat x) as [px|] eqn:Hpx; [|done]. simpl.
  apply lookup_lt_Some in Hpx.
  destruct (shade px); [|done]. simpl. case_decide; [|done].
  apply IH; lia.
Qed.

Lemma draw_columns_outside (todo : nat) :
  ∀ (x stride line : Z) (pixels : list byte) (fb : list Z) (k : Z),
    x ≤ k < x + Z.of_nat todo →
    (length fb ≤ fb_index stride line k)%nat →
    draw_columns todo x stride line pixels fb = None.
Proof.
  induction todo as [|todo IH]; intros x stride line pixels fb k Hk Hout; [lia|].
  simpl. destruct (pixels !! Z.to_nat x) as [px|]; [|done]. simpl.
  destruct (shade px); [|done]. simpl. case_decide as Hin; [|done].
  destruct (decide (k = x)) as [->|Hne]; [lia|].
  apply (IH _ _ _ _ _ k); [lia|]. now rewrite length_insert.
Qed.

(** X5: the scanline callback is defined exactly when the row has a pixel
    for every column of the window and every index it computes lies in the
    framebuffer; a row shorter than the window width (which is what a
    negative [r.w] always gives, being compared as unsigned) or an index
    past the framebuffer is an access out of bounds, not a clipped
    drawing. *)
Theorem lcd_draw_line_defined_iff (s : state) (w : RGFW_window)
    (pixels : list byte) (line : Z) :
  win (priv s) ≠ NULL → display s = Some w →
  (∃ s', lcd_draw_line pixels line s = Ok tt s')
  ↔ (u32 (r_w w) ≤ Z.of_nat (length pixels)
     ∧ ∀ x, 0 ≤ x < u32 (r_w w) →
         (fb_index (screenWidth (priv s)) line x < length (buffer w))%nat).
Proof.
  intros Hw Hd. pose proof (u32_range (r_w w)) as Hr.
  rewrite (lcd_draw_line_unfold s w) by done. split.
  - intros [s' Hrun].
    destruct (decide (u32 (r_w w) ≤ Z.of_nat (length pixels))) as [Hrow|Hrow].
    + split; [exact Hrow|]. intros x Hx.
      destruct (decide (fb_index (screenWidth (priv s)) line x < length (buffer w))%nat)
        as [Hin|Hout]; [exact Hin|].
      rewrite (draw_columns_outside _ _ _ _ _ _ x) in Hrun; [discriminate|lia|lia].
    + rewrite draw_columns_short in Hrun; [discriminate|lia|lia].
  - intros [Hrow Hfb].
    destruct (draw_columns_total (Z.to_nat (u32 (r_w w))) 0 (screenWidth (priv s))
                line pixels (buffer w)) as [fb' ->]; [lia| |by eexists].
    intros k Hk. split; [lia|]. apply Hfb. lia.
Qed.

Lemma lcd_draw_line_defined_iff_witness :
  ¬ ∃ s', lcd_draw_line (bytes [3]%N) 1 narrow_window = Ok tt s'.
Proof.
  intros Hrun.
  apply (lcd_draw_line_defined_iff narrow_window small_window (bytes [3]%N) 1) in Hrun
    as [Hrow _].
  - vm_compute in Hrow. apply Hrow. reflexivity.
  - discriminate.
  - reflexivity.
Defined.

Lemma draw_columns_fixed (todo : nat) :
  ∀ (x stride line : Z) (pixels : list byte) (fb : list Z),
    (∀ k, x ≤ k < x + Z.of_nat todo →
       ∃ px, pixels !! Z.to_nat k = Some px
             ∧ fb !! fb_index stride line k = shade px) →
    draw_columns todo x stride line pixels fb = Some fb.
Proof.
  induction todo as [|todo IH]; intros x stride line pixels fb Hcols; [done|].
  simpl. destruct (Hcols x) as (px & -> & Hval); [lia|]. simpl.
  rewrite shade_cases in *. simpl.
  rewrite decide_True by (by eapply lookup_lt_Some).
  rewrite list_insert_id by exact Hval. apply IH. intros k Hk. apply Hcols. lia.
Qed.

(** X6: the scanline callback keeps no state of its own: it changes the
    framebuffer and nothing else (no block, no field of [priv] or [gb], no
    output), and drawing the same row on the same line a second time
    changes nothing at all. *)
Theorem lcd_draw_line_again (s s' : state) (pixels : list byte) (line : Z) :
  lcd_draw_line pixels line s = Ok tt s' →
  lcd_draw_line pixels line s' = Ok tt s'
  ∧ heap s' = heap s ∧ priv s' = priv s ∧ gb s' = gb s
  ∧ queue s' = queue s ∧ held s' = held s ∧ trace s' = trace s.
Proof.
  intros Hrun.
  assert (Hwin : ∃ w, win (priv s) ≠ NULL ∧ display s = Some w).
  { unfold lcd_draw_line, window in Hrun. monad_unfold.
    destruct (win (priv s)), (display s) as [w|]; try discriminate. by exists w. }
  destruct Hwin as (w & Hw & Hd). pose proof (u32_range (r_w w)) as Hr.
  rewrite (lcd_draw_line_unfold s w) in Hrun by done.
  destruct draw_columns as [fb'|] eqn:Hcols; [|discriminate].
  injection Hrun as <-. split; [|done].
  rewrite (lcd_draw_line_unfold _ (set_buffer fb' w)) by done. simpl.
  apply draw_columns_spec in Hcols as (_ & Hcols & _); [|lia..].
  rewrite draw_columns_fixed; [reflexivity|].
  intros k Hk. destruct (Hcols k Hk) as (px & Hpx & _ & Hval). eauto.
Qed.

Lemma lcd_draw_line_again_witness :
  lcd_draw_line (bytes [2; 7]%N) 1
    (set_display (Some (set_buffer
       [0x123456; 0x123456; 0x123456; 0x123456; 0x525252; 0; 0x123456; 0x123456]
       small_window)) narrow_window)
  = Ok tt (set_display (Some (set_buffer
       [0x123456; 0x123456; 0x123456; 0x123456; 0x525252; 0; 0x123456; 0x123456]
       small_window)) narrow_window).
Proof.
  apply (lcd_draw_line_again narrow_window _ (bytes [2; 7]%N) 1). reflexivity.
Defined.

Lemma fb_index_flat (stride line x : Z) :
  0 ≤ stride * line + x < 2 ^ 32 →
  Z.of_nat (fb_index stride line x) = stride * line + x.
Proof. intros Hr. rewrite fb_index_eq. now apply Z.mod_small. Qed.

(** X7: as long as the window is no wider than the stride and the indices
    do not wrap around, different lines occupy disjoint parts of the
    framebuffer: after two rows have been drawn on two different lines,
    both rows are in the framebuffer in full. *)
Theorem lcd_draw_line_rows_apart (s s'' : state) (w : RGFW_window)
    (pixels1 pixels2 : list byte) (line1 line2 : Z) :
  win (priv s) ≠ NULL → display s = Some w →
  u32 (r_w w) ≤ screenWidth (priv s) →
  0 ≤ line1 → 0 ≤ line2 → line1 ≠ line2 →
  screenWidth (priv s) * line1 + u32 (r_w w) ≤ 2 ^ 32 →
  screenWidth (priv s) * line2 + u32 (r_w w) ≤ 2 ^ 32 →
  (lcd_draw_line pixels1 line1;; lcd_draw_line pixels2 line2) s = Ok tt s'' →
  ∃ w'', display s'' = Some w''
    ∧ ∀ x, 0 ≤ x < u32 (r_w w) →
        (∃ px, pixels1 !! Z.to_nat x = Some px
               ∧ buffer w'' !! fb_index (screenWidth (priv s)) line1 x = shade px)
        ∧ (∃ px, pixels2 !! Z.to_nat x = Some px
                 ∧ buffer w'' !! fb_index (screenWidth (priv s)) line2 x = shade px).
Proof.
  intros Hw Hd Hwide H1 H2 Hne Hfit1 Hfit2 Hrun.
  pose proof (u32_range (r_w w)) as Hr.
  unfold mbind, M_bind in Hrun. rewrite (lcd_draw_line_unfold s w) in Hrun by done.
  destruct (draw_columns _ 0 _ line1 pixels1 _) as [fb1|] eqn:Hdraw1; [|discriminate].
  rewrite (lcd_draw_line_unfold _ (set_buffer fb1 w)) in Hrun by done. simpl in Hrun.
  destruct (draw_columns _ 0 _ line2 pixels2 _) as [fb2|] eqn:Hdraw2; [|discriminate].
  injection Hrun as <-. eexists. split; [reflexivity|]. simpl.
  apply draw_columns_spec in Hdraw1 as (_ & Hcols1 & _); [|lia..].
  apply draw_columns_spec in Hdraw2 as (_ & Hcols2 & Hrest2); [|lia..].
  intros x Hx. split.
  - destruct (Hcols1 x) as (px & Hpx & _ & Hval); [lia|].
    exists px. split; [exact Hpx|]. rewrite Hrest2; [exact Hval|].
    intros k Hk Heq. apply (f_equal Z.of_nat) in Heq.
    rewrite !fb_index_flat in Heq by nia. nia.
  - destruct (Hcols2 x) as (px & Hpx & _ & Hval); [lia|]. eauto.
Qed.

Lemma lcd_draw_line_rows_apart_witness :
  ∃ w'', display (set_display (Some (set_buffer
            [0x525252; 0; 0x123456; 0x123456; 0xFFFFFF; 0xA5A5A5; 0x123456; 0x123456]
            small_window)) narrow_window) = Some w''
    ∧ buffer w'' !! fb_index 4 0 1 = shade Byte.x07.
Proof.
  destruct (lcd_draw_line_rows_apart narrow_window
              (set_display (Some (set_buffer
                 [0x525252; 0; 0x123456; 0x123456; 0xFFFFFF; 0xA5A5A5; 0x123456; 0x123456]
                 small_window)) narrow_window)
              small_window
              (bytes [2; 7]%N) (bytes [0; 1]%N) 0 1) as (w'' & Hd & Hrows).
  - discriminate.
  - reflexivity.
  - vm_compute. discriminate.
  - lia.
  - lia.
  - lia.
  - vm_compute. discriminate.
  - vm_compute. discriminate.
  - reflexivity.
  - exists w''. split; [exact Hd|].
    destruct (Hrows 1) as [(px & Hpx & Hval) _].
    + vm_compute. split; [discriminate | reflexivity].
    + injection Hpx as <-. exact Hval.
Defined.

(** ** The input lines and the hot keys *)

(** X8: the joypad lines depend on the state of the eight bound keys and
    on nothing else, and they tell these eight keys apart: two key states
    give the same lines exactly when they agree on the eight keys. *)
Theorem joypad_update_bound_keys (s : state) (w : RGFW_window) (other : RGFW_Key → bool) :
  win (priv s) ≠ NULL → display s = Some w →
  ∃ s1 s2 : state,
    joypad_update s = Ok tt s1
    ∧ joypad_update (set_held other s) = Ok tt s2
    ∧ (joypad_bits (gb s1) = joypad_bits (gb s2)
       ↔ Forall (λ k, held s k = other k)
           [RGFW_z; RGFW_x; RGFW_BackSpace; RGFW_Return;
            RGFW_Right; RGFW_Left; RGFW_Up; RGFW_Down]).
Proof.
  intros Hw Hd. eexists. eexists.
  split; [apply (joypad_update_ok s w Hw Hd)|].
  split; [apply (joypad_update_ok (set_held other s) w Hw Hd)|].
  assert (Hneg : ∀ x y : bool, negb x = negb y → x = y) by (now intros [] []).
  simpl. split.
  - intros [= H1 H2 H3 H4 H5 H6 H7 H8].
    apply Hneg in H1, H2, H3, H4, H5, H6, H7, H8.
    repeat constructor; assumption.
  - intros Hall. repeat (apply Forall_cons in Hall as [-> Hall]). reflexivity.
Qed.

Lemma joypad_update_bound_keys_witness :
  ∃ s1 s2 : state,
    joypad_update narrow_window = Ok tt s1
    ∧ joypad_update (set_held (λ k, match k with RGFW_r => true | _ => false end)
                       narrow_window) = Ok tt s2
    ∧ (joypad_bits (gb s1) = joypad_bits (gb s2)
       ↔ Forall (λ k, held narrow_window k = match k with RGFW_r => true | _ => false end)
           [RGFW_z; RGFW_x; RGFW_BackSpace; RGFW_Return;
            RGFW_Right; RGFW_Left; RGFW_Up; RGFW_Down]).
Proof.
  apply (joypad_update_bound_keys narrow_window small_window).
  - discriminate.
  - reflexivity.
Defined.

Lemma lnot_wrap (bits x : Z) :
  0 < bits → 0 ≤ x < 2 ^ bits → Z.lnot x mod 2 ^ bits = 2 ^ bits - 1 - x.
Proof.
  intros Hb Hx. unfold Z.lnot.
  replace (Z.pred (- x)) with (2 ^ bits - 1 - x + (-1) * 2 ^ bits) by lia.
  rewrite Z_mod_plus_full. apply Z.mod_small. lia.
Qed.

(** X9: when the interlace and frame-skip flags are unsigned bit-fields
    (an [int] is stored in them modulo [2^bits]), one event of a flag's
    hot key changes the flag and a second one brings it back; as press and
    release are both events, the flag is back after the key is let go. *)
Theorem hotkeys_toggle_back (h : host) (bits : Z) (s : state) :
  0 < bits → (∀ z, to_flag h z = z mod 2 ^ bits) →
  0 ≤ interlace (gb s) < 2 ^ bits → 0 ≤ frame_skip (gb s) < 2 ^ bits →
  (∃ s1 s2, hotkeys h RGFW_i s = Ok tt s1
            ∧ interlace (gb s1) = 2 ^ bits - 1 - interlace (gb s)
            ∧ interlace (gb s1) ≠ interlace (gb s)
            ∧ hotkeys h RGFW_i s1 = Ok tt s2
            ∧ gb s2 = gb s ∧ trace s2 = trace s)
  ∧ (∃ s1 s2, hotkeys h RGFW_o s = Ok tt s1
              ∧ frame_skip (gb s1) = 2 ^ bits - 1 - frame_skip (gb s)
              ∧ frame_skip (gb s1) ≠ frame_skip (gb s)
              ∧ hotkeys h RGFW_o s1 = Ok tt s2
              ∧ gb s2 = gb s ∧ trace s2 = trace s).
Proof.
  intros Hb Hflag Hi Ho.
  assert (Hodd : ∀ x, 2 ^ bits - 1 - x ≠ x).
  { intros x Heq. replace bits with (Z.succ (bits - 1)) in Heq by lia.
    rewrite Z.pow_succ_r in Heq by lia. lia. }
  assert (Hback : ∀ x, 0 ≤ x < 2 ^ bits →
            to_flag h (Z.lnot (to_flag h (Z.lnot x))) = x).
  { intros x Hx. rewrite !Hflag. rewrite (lnot_wrap bits x) by done.
    rewrite lnot_wrap by lia. lia. }
  split; eexists; eexists; (split; [reflexivity|]); simpl;
    rewrite Hflag, lnot_wrap by done;
    (split; [reflexivity|]); (split; [apply Hodd|]); (split; [reflexivity|]); simpl.
  - rewrite <- (lnot_wrap bits (interlace (gb s))), <- !Hflag, Hback by done.
    split; [now destruct (gb s) | reflexivity].
  - rewrite <- (lnot_wrap bits (frame_skip (gb s))), <- !Hflag, Hback by done.
    split; [now destruct (gb s) | reflexivity].
Qed.

Lemma hotkeys_toggle_back_witness :
  ∃ s1 s2, hotkeys quiet RGFW_i narrow_window = Ok tt s1
           ∧ interlace (gb s1) = 1
           ∧ hotkeys quiet RGFW_i s1 = Ok tt s2
           ∧ gb s2 = gb narrow_window.
Proof.
  destruct (hotkeys_toggle_back quiet 1 narrow_window)
    as [(s1 & s2 & H1 & Hv & _ & H2 & Hgb & _) _].
  - lia.
  - reflexivity.
  - simpl. lia.
  - simpl. lia.
  - exists s1, s2. split; [exact H1|]. split; [exact Hv|]. split; [exact H2 | exact Hgb].
Defined.

(** ** The main loop over many turns *)

Lemma omap_snoc_none {A B : Type} (f : A → option B) (l : list A) (x : A) :
  f x = None → omap f (l ++ [x]) = omap f l.
Proof. intros Hx. rewrite omap_app. simpl. rewrite Hx. apply app_nil_r. Qed.

Lemma on_event_Ok_inv (h : host) (e : RGFW_Event) (s s1 : state) :
  on_event h e s = Ok tt s1 →
  queue s1 = queue s
  ∧ (∃ fired, trace s1 = trace s ++ fired ∧ (fired = [] ∨ fired = [GbReset]))
  ∧ ((∃ n, type e = RGFW_event n) → gb s1 = gb s).
Proof.
  intros Hrun.
  destruct (type e) eqn:Ht.
  3: { unfold on_event in Hrun. rewrite Ht in Hrun. injection Hrun as <-.
       split; [done|]. split; [exists []; rewrite app_nil_r; auto | done]. }
  all: assert (Hwin : ∃ w, win (priv s) ≠ NULL ∧ display s = Some w)
         by (unfold on_event, joypad_update, RGFW_isPressedI in Hrun;
             rewrite Ht in Hrun; monad_unfold;
             destruct (win (priv s)), (display s) as [w|]; try discriminate;
             by exists w);
       destruct Hwin as (w & Hw & Hd);
       unfold on_event in Hrun; rewrite Ht in Hrun; monad_unfold;
       rewrite (joypad_update_ok s w Hw Hd) in Hrun;
       match type of Hrun with hotkeys ?h' ?k ?st = _ =>
         destruct (hotkeys_ok h' k st) as (s2 & Hrun2 & Htr & _ & _ & _ & _ & Hq & _)
       end;
       rewrite Hrun2 in Hrun; injection Hrun as <-;
       (split; [exact Hq|]);
       (split; [|intros [n Hn]; discriminate]);
       eexists; (split; [exact Htr|]); destruct (keyCode e); auto.
Qed.

(** What a turn that returns has added to the trace. *)
Lemma turn_trace (h : host) (f : frame) (s s' : state) (w : RGFW_window) :
  win (priv s) ≠ NULL → display s = Some w →
  turn h f s = Ok tt s' →
  win (priv s') ≠ NULL ∧ is_Some (display s')
  ∧ queue s' = tail (queue s ++ arrivals f)
  ∧ ∃ fired g fb,
      trace s' = trace s ++ CheckEvent (head (queue s ++ arrivals f))
                   :: fired ++ [GbRunFrame g (tail (queue s ++ arrivals f)); SwapBuffers fb]
      ∧ (fired = [] ∨ fired = [GbReset])
      ∧ gb s' = g
      ∧ (match head (queue s ++ arrivals f) with
         | Some e => ∃ n, type e = RGFW_event n
         | None => True
         end → g = gb s).
Proof.
  intros Hw Hd Hturn.
  destruct (turn_poll h f s w Hw Hd)
    as (s1 & Heq & Hw1 & [w1 Hd1] & _ & _ & _ & Hq1 & Hhead).
  rewrite Heq in Hturn. unfold gb_run_frame, RGFW_window_swapBuffers in Hturn.
  monad_unfold.
  destruct (run_calls (calls f) _) as [[] s2| |] eqn:Hcalls; try discriminate.
  pose proof (run_calls_Ok _ _ _ Hcalls) as (Htr & Hpr & Hgb & Hqu & _ & Hdisp).
  destruct Hdisp as [w2 Hd2]; [simpl; rewrite Hd1; by eexists|].
  rewrite (window_ok s2 w2) in Hturn; [| rewrite Hpr; exact Hw1 | exact Hd2].
  injection Hturn as <-. simpl. rewrite Hpr, Hd2, Hqu, Htr, Hgb. simpl.
  split; [exact Hw1|]. split; [by eexists|]. split; [exact Hq1|].
  destruct (head (queue s ++ arrivals f)) as [e|].
  - destruct Hhead as (sp & Hgsp & _ & Htsp & Hev).
    apply on_event_Ok_inv in Hev as (_ & (fired & Hfired & Hcases) & Hsame).
    exists fired, (gb s1), (buffer w2). rewrite Hq1, Hfired, Htsp.
    split; [now rewrite <- !app_assoc|]. split; [exact Hcases|]. split; [done|].
    intros Hn. rewrite Hsame by exact Hn. exact Hgsp.
  - destruct Hhead as [Hgb1 Htr1].
    exists [], (gb s1), (buffer w2). rewrite Hq1, Htr1.
    split; [now rewrite <- !app_assoc|]. auto.
Qed.

(** X10: the loop takes the host's events in the order they came and
    loses none: at the end of any number of turns, the events polled so
    far followed by the events still queued are the events that were
    queued at the start followed by all that arrived since. *)
Theorem main_loop_events_in_order (h : host) (turns : list frame) :
  ∀ (s s' : state) (w : RGFW_window),
    win (priv s) ≠ NULL → display s = Some w →
    main_loop h turns s = Ok tt s' →
    polled (trace s') ++ queue s'
    = polled (trace s) ++ queue s ++ concat (map arrivals turns).
Proof.
  induction turns as [|f turns IH]; intros s s' w Hw Hd Hloop; simpl in Hloop.
  - injection Hloop as <-. simpl. now rewrite app_nil_r.
  - monad_unfold. destruct (turn h f s) as [[] s1| |] eqn:Hturn; try discriminate.
    destruct (turn_trace h f s s1 w Hw Hd Hturn)
      as (Hw1 & [w1 Hd1] & Hq1 & fired & g & fb & Htr & Hfired & _).
    rewrite (IH s1 s' w1 Hw1 Hd1 Hloop). simpl.
    rewrite Htr, Hq1. unfold polled. rewrite !omap_app. fold (polled (trace s)).
    rewrite <- !app_assoc. f_equal. rewrite (app_assoc (queue s)). 
    destruct (queue s ++ arrivals f) as [|e q]; simpl;
      destruct Hfired as [-> | ->]; simpl; reflexivity.
Qed.

Lemma main_loop_events_in_order_witness :
  ∃ s', main_loop quiet
          [{| arrivals := [press RGFW_z; press RGFW_x]; keyboard := λ _, true; calls := [] |};
           {| arrivals := [release RGFW_z]; keyboard := λ _, false; calls := [] |}]
          narrow_window = Ok tt s'
        ∧ polled (trace s') ++ queue s' = [press RGFW_z; press RGFW_x; release RGFW_z].
Proof.
  eexists. split; [vm_compute; reflexivity|].
  apply (main_loop_events_in_order quiet
           [{| arrivals := [press RGFW_z; press RGFW_x]; keyboard := λ _, true; calls := [] |};
            {| arrivals := [release RGFW_z]; keyboard := λ _, false; calls := [] |}]
           narrow_window _ small_window).
  - discriminate.
  - reflexivity.
  - vm_compute. reflexivity.
Defined.

(** X11: every turn of the loop that returns has run the engine for
    exactly one frame and presented the framebuffer exactly once: after
    the loop, the frames run and the framebuffers presented have both
    grown by the number of turns. *)
Theorem main_loop_one_frame_per_turn (h : host) (turns : list frame) :
  ∀ (s s' : state) (w : RGFW_window),
    win (priv s) ≠ NULL → display s = Some w →
    main_loop h turns s = Ok tt s' →
    length (frames_run (trace s')) = (length (frames_run (trace s)) + length turns)%nat
    ∧ length (presented (trace s')) = (length (presented (trace s)) + length turns)%nat.
Proof.
  induction turns as [|f turns IH]; intros s s' w Hw Hd Hloop; simpl in Hloop.
  - injection Hloop as <-. simpl. lia.
  - monad_unfold. destruct (turn h f s) as [[] s1| |] eqn:Hturn; try discriminate.
    destruct (turn_trace h f s s1 w Hw Hd Hturn)
      as (Hw1 & [w1 Hd1] & _ & fired & g & fb & Htr & Hfired & _).
    destruct (IH s1 s' w1 Hw1 Hd1 Hloop) as [-> ->]. rewrite Htr.
    unfold frames_run, presented. rewrite !omap_app, !length_app. simpl.
    rewrite !omap_app, !length_app.
    destruct Hfired as [-> | ->]; simpl; lia.
Qed.

Lemma main_loop_one_frame_per_turn_witness :
  ∃ s', main_loop quiet
          [{| arrivals := [press RGFW_r]; keyboard := λ _, true; calls := [] |};
           {| arrivals := []; keyboard := λ _, false; calls := [] |}]
          narrow_window = Ok tt s'
        ∧ length (frames_run (trace s')) = 2%nat.
Proof.
  eexists. split; [vm_compute; reflexivity|].
  apply (main_loop_one_frame_per_turn quiet
           [{| arrivals := [press RGFW_r]; keyboard := λ _, true; calls := [] |};
            {| arrivals := []; keyboard := λ _, false; calls := [] |}]
           narrow_window _ small_window).
  - discriminate.
  - reflexivity.
  - vm_compute. reflexivity.
Defined.

(** X12: the loop writes the joypad lines and the two flags in the key
    event handler only: over turns in which no key event is polled (no
    event at all, or events of other types), whatever the key state, every
    frame runs in the [gb] state the loop started with. *)
Theorem main_loop_without_key_events (h : host) (turns : list frame) :
  ∀ (s s' : state) (w : RGFW_window),
    win (priv s) ≠ NULL → display s = Some w →
    Forall (λ e, ∃ n, type e = RGFW_event n) (queue s ++ concat (map arrivals turns)) →
    main_loop h turns s = Ok tt s' →
    gb s' = gb s
    ∧ frames_run (trace s') = frames_run (trace s) ++ replicate (length turns) (gb s).
Proof.
  induction turns as [|f turns IH]; intros s s' w Hw Hd Hev Hloop; simpl in Hloop.
  - injection Hloop as <-. simpl. now rewrite app_nil_r.
  - monad_unfold. destruct (turn h f s) as [[] s1| |] eqn:Hturn; try discriminate.
    destruct (turn_trace h f s s1 w Hw Hd Hturn)
      as (Hw1 & [w1 Hd1] & Hq1 & fired & g & fb & Htr & Hfired & Hg & Hsame).
    simpl in Hev. rewrite app_assoc in Hev. apply Forall_app in Hev as [Hnow Hlater].
    assert (Hgs : g = gb s).
    { apply Hsame. destruct (queue s ++ arrivals f) as [|e q]; [done|].
      now apply Forall_cons in Hnow as [He _]. }
    assert (Hev1 : Forall (λ e, ∃ n, type e = RGFW_event n)
                     (queue s1 ++ concat (map arrivals turns))).
    { rewrite Hq1. apply Forall_app. split; [|exact Hlater].
      destruct (queue s ++ arrivals f) as [|e q]; [done|].
      now apply Forall_cons in Hnow as [_ Hq]. }
    destruct (IH s1 s' w1 Hw1 Hd1 Hev1 Hloop) as [-> ->].
    rewrite Hg, Hgs. split; [reflexivity|]. rewrite Htr, Hgs.
    unfold frames_run. rewrite !omap_app. simpl. rewrite !omap_app. simpl.
    rewrite <- !app_assoc. f_equal.
    destruct Hfired as [-> | ->]; reflexivity.
Qed.

Lemma main_loop_without_key_events_witness :
  ∃ s', main_loop quiet
          [{| arrivals := [no_event]; keyboard := λ _, true; calls := [] |};
           {| arrivals := []; keyboard := λ _, true; calls := [] |}]
          narrow_window = Ok tt s'
        ∧ gb s' = gb narrow_window.
Proof.
  eexists. split; [vm_compute; reflexivity|].
  apply (main_loop_without_key_events quiet
           [{| arrivals := [no_event]; keyboard := λ _, true; calls := [] |};
            {| arrivals := []; keyboard := λ _, true; calls := [] |}]
           narrow_window _ small_window).
  - discriminate.
  - reflexivity.
  - repeat constructor. by exists 0.
  - vm_compute. reflexivity.
Defined.

(** ** Whole runs: exit status *)

Lemma gb_error_cases (gb_err : gb_error_e) (val : Z) (s : state) :
  gb_error gb_err val s = Undefined
  ∨ ∃ s', gb_error gb_err val s = Exited EXIT_FAILURE s' ∧ display s' = display s.
Proof.
  unfold gb_error. monad_unfold.
  destruct (gb_err_str !! Z.to_nat (gb_error_code gb_err)) as [name|]; [|auto].
  repeat (match goal with |- context [free ?p ?st] =>
            destruct (free_cases p st) as [-> | [[_ ->] | (? & _ & ->)]]
          end; simpl; auto); right; eexists; split; reflexivity.
Qed.

Lemma windowed_bind {A B : Type} (m : M A) (k : A → M B) (s : state) :
  windowed (m s) →
  (∀ x s', win (priv s') ≠ NULL → is_Some (display s') → windowed (k x s')) →
  windowed ((m ≫= k) s).
Proof.
  intros Hm Hk. monad_unfold. destruct (m s) as [x s'| |]; simpl in *; [|done..].
  now apply Hk.
Qed.

Lemma dispatch_windowed (c : callback) (s : state) :
  win (priv s) ≠ NULL → is_Some (display s) → windowed (dispatch c s).
Proof.
  intros Hw Hd. destruct c as [addr|addr|addr val|pixels line|gb_err val]; simpl.
  - unfold gb_rom_read. monad_unfold.
    destruct (load_cases (rom (priv s)) addr s) as [-> | [v ->]]; simpl; auto.
  - unfold gb_cart_ram_read. monad_unfold.
    destruct (load_cases (cart_ram (priv s)) addr s) as [-> | [v ->]]; simpl; auto.
  - unfold gb_cart_ram_write. monad_unfold.
    destruct (store_cases (cart_ram (priv s)) addr val s) as [-> | (data & _ & ->)];
      simpl; auto.
  - destruct (lcd_draw_line_cases pixels line s) as [-> | (w & fb & ->)]; simpl; [done|].
    split; [exact Hw | by eexists].
  - destruct (gb_error_cases gb_err val s) as [-> | (s' & -> & Hd')]; simpl; [done|].
    now rewrite Hd'.
Qed.

Lemma run_calls_windowed (cs : list callback) :
  ∀ s, win (priv s) ≠ NULL → is_Some (display s) → windowed (run_calls cs s).
Proof.
  induction cs as [|c cs IH]; intros s Hw Hd; simpl; [done|].
  apply windowed_bind; [now apply dispatch_windowed | intros _ s'; apply IH].
Qed.

Lemma turn_windowed (h : host) (f : frame) (s : state) :
  win (priv s) ≠ NULL → is_Some (display s) → windowed (turn h f s).
Proof.
  intros Hw [w Hd].
  destruct (turn_poll h f s w Hw Hd) as (s1 & -> & Hw1 & Hd1 & _).
  apply windowed_bind.
  - unfold gb_run_frame. monad_unfold. now apply run_calls_windowed.
  - intros _ s2 Hw2 [w2 Hd2]. unfold RGFW_window_swapBuffers. monad_unfold.
    rewrite (window_ok s2 w2 Hw2 Hd2). simpl. rewrite Hd2. split; [exact Hw2 | by eexists].
Qed.

Lemma main_loop_windowed (h : host) (turns : list frame) :
  ∀ s, win (priv s) ≠ NULL → is_Some (display s) → windowed (main_loop h turns s).
Proof.
  induction turns as [|f turns IH]; intros s Hw Hd; simpl; [done|].
  apply windowed_bind; [now apply turn_windowed | intros _ s'; apply IH].
Qed.

Lemma setup_windowed (h : host) (rom_file_name : string) (s : state) :
  win (priv s) ≠ NULL → is_Some (display s) → windowed (setup h rom_file_name s).
Proof.
  intros Hw [w Hd]. unfold setup.
  destruct (fs h rom_file_name) as [f|] eqn:Hf.
  - unfold mbind at 1. unfold M_bind at 1.
    rewrite (read_rom_to_ram_open h rom_file_name f s Hf).
    destruct (decide (length (contents f) ≤ delivered f)%nat); monad_unfold; simpl.
    + destruct (gb_init_ret h); simpl.
      * unfold window. simpl. rewrite Hd.
        destruct (win (priv s)) eqn:Hwin; [done|]. simpl.
        split; [now rewrite Hwin | by eexists].
      * rewrite Hd. split; [done | by eexists].
    + rewrite Hd. split; [done | by eexists].
  - unfold read_rom_to_ram. rewrite Hf. monad_unfold. simpl.
    rewrite Hd. split; [done | by eexists].
Qed.

Lemma bind_never_returns {A B : Type} (m : M A) (k : A → M B) (s : state)
    (y : B) (s2 : state) :
  (∀ x s1, k x s1 ≠ Ok y s2) → (m ≫= k) s ≠ Ok y s2.
Proof.
  intros Hk. monad_unfold. destruct (m s) as [x s1| |]; [apply Hk | discriminate..].
Qed.

Lemma run_never_returns (h : host) (u : unit) (s : state) : run h ≠ Ok u s.
Proof.
  unfold run, main.
  do 3 (apply bind_never_returns; intros ? ?).
  destruct (argv h) as [|prog [|rom_file_name [|more rest]]].
  - discriminate.
  - apply bind_never_returns; intros ? ?. discriminate.
  - do 4 (apply bind_never_returns; intros ? ?).
    do 2 (apply bind_never_returns; intros ? ?). discriminate.
  - apply bind_never_returns; intros ? ?. discriminate.
Qed.

Lemma run_exit_cases (h : host) (code : Z) (s' : state) :
  run h = Exited code s' →
  (code = EXIT_SUCCESS ∧ display s' = None
   ∧ ∃ t, trace s' = t ++ [CloseWindow; Free 2; Free 1; Exit EXIT_SUCCESS])
  ∨ (code = EXIT_FAILURE ∧ is_Some (display s')).
Proof.
  unfold run, main, RGFW_createWindow.
  unfold mbind at 1 2 3 4 5. monad_unfold. simpl.
  set (s0 := set_priv _ _).
  assert (Hw0 : win (priv s0) ≠ NULL) by discriminate.
  assert (Hd0 : is_Some (display s0)) by (by eexists).
  destruct (argv h) as [|prog [|rom_file_name [|more rest]]]; try discriminate.
  - intros [= <- <-]. right. auto.
  - pose proof (setup_windowed h rom_file_name s0 Hw0 Hd0) as Hsetup.
    pose proof (setup_cases h rom_file_name s0 eq_refl eq_refl Hw0 Hd0) as Hcases.
    destruct (setup h rom_file_name s0) as [[] s1|c s1|] eqn:Hs; simpl in Hsetup.
    + assert (Hrun1 : running h s1).
      { destruct (fs h rom_file_name) as [f|]; [|destruct Hcases as (? & ? & _); done].
        destruct (decide (length (contents f) ≤ delivered f)%nat);
          [|destruct Hcases as (? & ? & _); done].
        destruct (gb_init_ret h); destruct Hcases as (? & Heq & Hinv); [|done].
        injection Heq as <-. apply Hinv. }
      destruct Hsetup as [Hw1 Hd1].
      pose proof (main_loop_windowed h (frames h) s1 Hw1 Hd1) as Hloopw.
      pose proof (main_loop_settled h (frames h) s1 Hrun1) as Hloop.
      destruct (main_loop h (frames h) s1) as [[] s2|c s2|]; simpl in Hloop, Hloopw.
      * destruct Hloop as (image & ram & Hheap & Hrom & Hram & _ & Hw2 & [w2 Hd2] & _).
        unfold RGFW_window_close. monad_unfold. rewrite (window_ok s2 w2 Hw2 Hd2).
        unfold free. simpl. rewrite Hram, Hrom, Hheap. simpl.
        intros [= <- <-]. left. simpl.
        split; [done|]. split; [done|]. exists (trace s2). now rewrite <- !app_assoc.
      * destruct Hloopw as [-> Hd2]. intros [= <- <-]. auto.
      * discriminate.
    + destruct Hsetup as [-> Hd1]. intros [= <- <-]. auto.
    + discriminate.
  - intros [= <- <-]. right. auto.
Qed.

(** X13: [main] never returns into a running process, whatever the host
    does, and the status it ends with tells whether the window was closed:
    a run ends with [EXIT_SUCCESS] only after the main loop has finished
    and the window has been closed, and every other way out ends with
    [EXIT_FAILURE] and the window still open. *)
Theorem run_exit_status (h : host) :
  (∀ (u : unit) (s0 : state), run h ≠ Ok u s0)
  ∧ ∀ (code : Z) (s' : state),
      run h = Exited code s' →
      (code = EXIT_SUCCESS ∧ display s' = None
       ∧ ∃ t, trace s' = t ++ [CloseWindow; Free 2; Free 1; Exit EXIT_SUCCESS])
      ∨ (code = EXIT_FAILURE ∧ is_Some (display s')).
Proof.
  split; [intros u s0; apply run_never_returns | apply run_exit_cases].
Qed.

Lemma run_exit_status_witness :
  ∃ s', run (desk ["peanut"; "game.gb"] GB_INIT_NO_ERROR
               [{| arrivals := []; keyboard := λ _, false; calls := [] |}])
          = Exited EXIT_SUCCESS s'
        ∧ display s' = None.
Proof.
  assert (Hrun : ∃ s', run (desk ["peanut"; "game.gb"] GB_INIT_NO_ERROR
                              [{| arrivals := []; keyboard := λ _, false; calls := [] |}])
                       = Exited EXIT_SUCCESS s')
    by (eexists; vm_compute; reflexivity).
  destruct Hrun as [s' Hrun]. exists s'. split; [exact Hrun|].
  destruct (run_exit_status
              (desk ["peanut"; "game.gb"] GB_INIT_NO_ERROR
                 [{| arrivals := []; keyboard := λ _, false; calls := [] |}]))
    as [_ Hexit].
  destruct (Hexit EXIT_SUCCESS s' Hrun) as [(_ & Hd & _) | (Hbad & _)].
  - exact Hd.
  - discriminate Hbad.
Defined.

(** ** Whole runs: no access out of bounds *)

Lemma steady_log (h : host) (image : list byte) (x : action) (s : state) :
  steady h image s → steady h image (log x s).
Proof. intros (ram & w & H). exists ram, w. exact H. Qed.

Lemma defined_bind {A B : Type} (h : host) (image : list byte)
    (m : M A) (k : A → M B) (s : state) :
  defined h image (m s) →
  (∀ x s', steady h image s' → defined h image (k x s')) →
  defined h image ((m ≫= k) s).
Proof.
  intros Hm Hk. monad_unfold. destruct (m s) as [x s'| |]; simpl in *; auto.
Qed.

Lemma dispatch_defined (h : host) (image : list byte) (c : callback) (s : state) :
  steady h image s → call_ok h image c → defined h image (dispatch c s).
Proof.
  intros Hst Hok.
  pose proof Hst as (ram & w & Hheap & Hrom & Hram & Hlen & Hw & Hd & Hrw & Hfb & Hsw).
  destruct c as [addr|addr|addr val|pixels line|gb_err val]; simpl in *.
  - unfold gb_rom_read, load. monad_unfold. rewrite Hrom, Hheap. simpl.
    destruct (lookup_lt_is_Some_2 image addr Hok) as [v ->]. exact Hst.
  - unfold gb_cart_ram_read, load. monad_unfold. rewrite Hram, Hheap. simpl.
    destruct (lookup_lt_is_Some_2 ram addr) as [v ->]; [lia|]. exact Hst.
  - unfold gb_cart_ram_write, store. monad_unfold. rewrite Hram, Hheap. simpl.
    rewrite decide_True by lia. simpl.
    exists (<[addr := val]> ram), w. rewrite length_insert. auto 10.
  - destruct Hok as [Hrow Hcols]. pose proof (u32_range (window_w h)) as Hr.
    rewrite (lcd_draw_line_unfold s w) by done. rewrite Hrw, Hsw.
    destruct (draw_columns_total (Z.to_nat (u32 (window_w h))) 0 (u32 (screen_w h))
                line pixels (buffer w)) as [fb' Hrun]; [lia| |].
    { intros k Hk. split; [lia|]. rewrite Hfb. apply Hcols. lia. }
    rewrite Hrun. simpl.
    apply draw_columns_spec in Hrun as (Hlen' & _); [|lia..].
    exists ram, (set_buffer fb' w). simpl. rewrite Hlen'. auto 10.
  - destruct (gb_error_exits s gb_err val image ram) as (name & _ & ->);
      [now rewrite Hrom, Hheap | now rewrite Hram, Hheap | congruence | done].
Qed.

Lemma run_calls_defined (h : host) (image : list byte) (cs : list callback) :
  ∀ s, steady h image s → Forall (call_ok h image) cs →
       defined h image (run_calls cs s).
Proof.
  induction cs as [|c cs IH]; intros s Hst Hok; simpl; [exact Hst|].
  apply Forall_cons in Hok as [Hc Hcs].
  apply defined_bind; [now apply dispatch_defined | intros _ s' Hs'; now apply IH].
Qed.

Lemma turn_poll_steady (h : host) (image : list byte) (f : frame) (s : state) :
  steady h image s →
  ∃ s1, turn h f s = (gb_run_frame (calls f);; RGFW_window_swapBuffers) s1
        ∧ steady h image s1.
Proof.
  intros (ram & w & Hheap & Hrom & Hram & Hlen & Hw & Hd & Hrw & Hfb & Hsw).
  pose (s0 := set_held (keyboard f) (set_queue (queue s ++ arrivals f) s)).
  assert (Hturn : turn h f s
            = (got ← RGFW_window_checkEvent;
               (if got : bool then w ← window; on_event h (event w) else mret tt);;
               gb_run_frame (calls f);; RGFW_window_swapBuffers) s0) by reflexivity.
  assert (Hpoll := RGFW_window_checkEvent_ok s0 w Hw Hd).
  change (queue s0) with (queue s ++ arrivals f) in Hpoll.
  rewrite Hturn. clear Hturn.
  destruct (queue s ++ arrivals f) as [|e q].
  - exists (log (CheckEvent None) s0). split.
    { monad_unfold. now rewrite Hpoll. }
    exists ram, w. simpl. auto 10.
  - set (sp := set_display (Some (set_event e w))
                 (set_queue q (log (CheckEvent (Some e)) s0))) in *.
    destruct (on_event_ok h e sp (set_event e w))
      as (s1 & Hrun & Hhp & Hp & Hdisp & _); [exact Hw | reflexivity |].
    exists s1. split.
    { monad_unfold. rewrite Hpoll.
      rewrite (window_ok sp (set_event e w)) by done.
      change (event (set_event e w)) with e. now rewrite Hrun. }
    exists ram, (set_event e w). rewrite Hhp, Hp, Hdisp. simpl. auto 10.
Qed.

Lemma turn_defined (h : host) (image : list byte) (f : frame) (s : state) :
  steady h image s → Forall (call_ok h image) (calls f) →
  defined h image (turn h f s).
Proof.
  intros Hst Hok. destruct (turn_poll_steady h image f s Hst) as (s1 & -> & Hst1).
  apply defined_bind.
  - unfold gb_run_frame. monad_unfold.
    apply run_calls_defined; [now apply steady_log | exact Hok].
  - intros _ s2 Hst2. unfold RGFW_window_swapBuffers. monad_unfold.
    pose proof Hst2 as (ram & w & _ & _ & _ & _ & Hw2 & Hd2 & _).
    rewrite (window_ok s2 w Hw2 Hd2). simpl. now apply steady_log.
Qed.

Lemma main_loop_defined (h : host) (image : list byte) (turns : list frame) :
  ∀ s, steady h image s →
       Forall (λ f, Forall (call_ok h image) (calls f)) turns →
       defined h image (main_loop h turns s).
Proof.
  induction turns as [|f turns IH]; intros s Hst Hok; simpl; [exact Hst|].
  apply Forall_cons in Hok as [Hf Hrest].
  apply defined_bind; [now apply turn_defined | intros _ s' Hs'; now apply IH].
Qed.

Lemma setup_steady (h : host) (rom_file_name : string) (f : file)
    (s : state) (w : RGFW_window) :
  heap s = [] → win (priv s) ≠ NULL → display s = Some w →
  r_w w = window_w h → length (buffer w) = length (window_buffer h) →
  screenWidth (priv s) = u32 (screen_w h) →
  fs h rom_file_name = Some f → (length (contents f) ≤ delivered f)%nat →
  gb_init_ret h = GB_INIT_NO_ERROR →
  ∃ s', setup h rom_file_name s = Ok tt s' ∧ steady h (contents f) s'.
Proof.
  intros Hheap Hw Hd Hrw Hfb Hsw Hf Hfull Hret.
  pose proof (read_rom_to_ram_open h rom_file_name f s Hf) as Hload.
  rewrite Hheap in Hload. simpl in Hload.
  rewrite decide_True in Hload by exact Hfull.
  eexists. split.
  - unfold setup. monad_unfold. rewrite Hload, Hret. simpl.
    unfold window. simpl. rewrite Hd.
    destruct (win (priv s)) eqn:Hwin; [done|]. reflexivity.
  - eexists _, _. simpl. rewrite length_map, length_seq.
    repeat split; try reflexivity; assumption.
Qed.

(** X14: [malloc] is modelled as always returning a block (the source
    uses its result untested) and the host as asking the window to close
    after finitely many turns.  On these two assumptions, with a program
    name in [argv[0]] and an engine that keeps its addresses inside the
    image and the save RAM and its rows and lines inside the window and
    the framebuffer, the front end makes no access out of bounds: whatever
    the arguments, the file, the result of [gb_init], the events and the
    keys, the run ends in an exit. *)
Theorem run_reaches_exit (h : host) (prog : string) (args : list string) :
  argv h = prog :: args →
  (∀ rom_file_name f,
     args = [rom_file_name] → fs h rom_file_name = Some f →
     Forall (λ fr, Forall (call_ok h (contents f)) (calls fr)) (frames h)) →
  ∃ (code : Z) (s' : state), run h = Exited code s'.
Proof.
  intros Hargv Hcalls. unfold run, main, RGFW_createWindow. rewrite Hargv.
  unfold mbind at 1 2 3 4 5. monad_unfold. simpl.
  set (s0 := set_priv _ _).
  destruct args as [|rom_file_name [|more rest]]; [by eexists _, _| |by eexists _, _].
  specialize (Hcalls rom_file_name).
  pose proof (setup_cases h rom_file_name s0 eq_refl eq_refl) as Hcases.
  destruct (fs h rom_file_name) as [f|] eqn:Hf.
  2: { destruct Hcases as (s1 & -> & _); [discriminate | by eexists |]. by eexists _, _. }
  destruct (decide (length (contents f) ≤ delivered f)%nat) as [Hfull|Hshort].
  2: { destruct Hcases as (s1 & -> & _); [discriminate | by eexists |]. by eexists _, _. }
  destruct (gb_init_ret h) eqn:Hret.
  2: { destruct Hcases as (s1 & -> & _); [discriminate | by eexists |]. by eexists _, _. }
  clear Hcases.
  destruct (setup_steady h rom_file_name f s0
              {| r_w := window_w h; buffer := window_buffer h; fpsCap := 0;
                 event := {| type := RGFW_event 0; keyCode := RGFW_key 0 |} |} eq_refl)
    as (s1 & -> & Hst1);
    [discriminate | reflexivity | reflexivity | reflexivity | reflexivity
     | exact Hf | exact Hfull | exact Hret |].
  pose proof (main_loop_defined h (contents f) (frames h) s1 Hst1 (Hcalls f eq_refl eq_refl))
    as Hloop.
  destruct (main_loop h (frames h) s1) as [[] s2|c s2|]; simpl in Hloop; [|by eexists _, _|done].
  destruct Hloop as (ram & w & Hheap & Hrom & Hram & _ & Hw2 & Hd2 & _).
  unfold RGFW_window_close. monad_unfold. rewrite (window_ok s2 w Hw2 Hd2).
  unfold free. simpl. rewrite Hram, Hrom, Hheap. simpl. by eexists _, _.
Qed.

Lemma run_reaches_exit_witness :
  ∃ (code : Z) (s' : state),
    run (desk ["peanut"; "game.gb"] GB_INIT_NO_ERROR
           [{| arrivals := [press RGFW_z]; keyboard := λ _, true;
               calls := [call_rom_read 2; call_cart_ram_write 1 Byte.x07;
                         call_lcd_draw_line (bytes [0; 1]%N) 1;
                         call_cart_ram_read 1] |}])
    = Exited code s'.
Proof.
  apply (run_reaches_exit _ "peanut" ["game.gb"]).
  - reflexivity.
  - intros rom_file_name f [= <-] [= <-].
    apply Forall_cons. split; [|by apply Forall_nil].
    simpl. repeat (apply Forall_cons; split); try apply Forall_nil; simpl; try lia;
      try done.
    split.
    + vm_compute. discriminate.
    + intros x Hx. change (u32 2) with 2 in Hx.
      assert (x = 0 ∨ x = 1) as [-> | ->] by lia; vm_compute; lia.
Defined.

Lemma run_buffers_at_exit_witness :
  ∃ s', run (desk ["peanut"; "game.gb"] GB_INIT_NO_ERROR
               [{| arrivals := []; keyboard := λ _, false;
                   calls := [call_error GB_HALT_FOREVER 0x0150] |}])
          = Exited EXIT_FAILURE s'
        ∧ heap s' = [Freed; Freed] ∧ frees (trace s') = [2; 1]%nat.
Proof.
  assert (Hrun : ∃ s', run (desk ["peanut"; "game.gb"] GB_INIT_NO_ERROR
                              [{| arrivals := []; keyboard := λ _, false;
                                  calls := [call_error GB_HALT_FOREVER 0x0150] |}])
                       = Exited EXIT_FAILURE s')
    by (eexists; vm_compute; reflexivity).
  destruct Hrun as [s' Hrun]. exists s'. split; [exact Hrun|].
  exact (run_buffers_at_exit
           (desk ["peanut"; "game.gb"] GB_INIT_NO_ERROR
              [{| arrivals := []; keyboard := λ _, false;
                  calls := [call_error GB_HALT_FOREVER 0x0150] |}])
           "peanut" "game.gb" EXIT_FAILURE s' eq_refl Hrun).
Defined.

(** ** Whole runs: the image cannot be loaded *)

(** X16: when the image cannot be opened, or its read stops short, [main]
    writes the source line number 146 and the system's error text to
    standard output (nothing to standard error), leaves [priv.rom] null
    and no live block, never calls [gb_init] and exits with a failure
    status. *)
Theorem main_load_failure (h : host) (prog rom_file_name : string) :
  argv h = [prog; rom_file_name] →
  match fs h rom_file_name with
  | None => True
  | Some f => (delivered f < length (contents f))%nat
  end →
  ∃ (s' : state) (t : list action),
    run h = Exited EXIT_FAILURE s'
    ∧ trace s' = CreateWindow :: t
                   ++ [Stdout ("146: " +:+ strerror_errno h +:+ nl); Exit EXIT_FAILURE]
    ∧ t = match fs h rom_file_name with
          | None => [Fopen rom_file_name false]
          | Some f => [Fopen rom_file_name true; Malloc 1 (length (contents f));
                       Free 1; Fclose]
          end
    ∧ rom (priv s') = NULL
    ∧ (∀ p data, block_at (heap s') p ≠ Some (Live data)).
Proof.
  intros Hargv Hfail. unfold run, main, RGFW_createWindow, setup. rewrite Hargv.
  unfold mbind at 1 2 3 4 5 6. monad_unfold. simpl.
  set (s0 := set_priv _ _).
  destruct (fs h rom_file_name) as [f|] eqn:Hf.
  - rewrite (read_rom_to_ram_open h rom_file_name f s0 Hf).
    rewrite decide_False by lia. simpl.
    eexists _, [Fopen rom_file_name true; Malloc 1 (length (contents f)); Free 1; Fclose].
    split; [reflexivity|]. split; [reflexivity|]. split; [reflexivity|].
    split; [reflexivity|]. intros [|[|[|p]]] data; simpl; discriminate.
  - unfold read_rom_to_ram. rewrite Hf. simpl.
    eexists _, [Fopen rom_file_name false].
    split; [reflexivity|]. split; [reflexivity|]. split; [reflexivity|].
    split; [reflexivity|]. intros [|p] data; simpl; discriminate.
Qed.

Lemma main_load_failure_witness :
  ∃ (s' : state) (t : list action),
    run (desk ["peanut"; "torn.gb"] GB_INIT_NO_ERROR []) = Exited EXIT_FAILURE s'
    ∧ trace s' = CreateWindow :: t
                   ++ [Stdout ("146: No such file or directory" +:+ nl); Exit EXIT_FAILURE]
    ∧ t = [Fopen "torn.gb" true; Malloc 1 3; Free 1; Fclose].
Proof.
  destruct (main_load_failure (desk ["peanut"; "torn.gb"] GB_INIT_NO_ERROR [])
              "peanut" "torn.gb") as (s' & t & Hrun & Htr & Ht & _).
  - reflexivity.
  - simpl. lia.
  - exists s', t. split; [exact Hrun|]. split; [exact Htr | exact Ht].
Defined.

(** ** The fatal error handler before everything is allocated *)

Lemma filter_non_null (p q : nat) :
  filter (λ x, x ≠ NULL) [p; q]
  = (if decide (p = NULL) then [] else [p]) ++ (if decide (q = NULL) then [] else [q]).
Proof.
  rewrite !filter_cons, filter_nil. repeat case_decide; try done; contradiction.
Qed.

(** X17: the handler copes with buffers that were never allocated: for
    each of [priv.cart_ram] and [priv.rom], null or live, it frees the
    ones that are not null, the save RAM before the image, and exits with
    a failure status; a null pointer is passed to [free] and ignored. *)
Theorem gb_error_frees_what_exists (s : state) (gb_err : gb_error_e) (val : Z) :
  (cart_ram (priv s) = NULL ∨ ∃ ram, block_at (heap s) (cart_ram (priv s)) = Some (Live ram)) →
  (rom (priv s) = NULL ∨ ∃ image, block_at (heap s) (rom (priv s)) = Some (Live image)) →
  (rom (priv s) = cart_ram (priv s) → rom (priv s) = NULL) →
  ∃ s', gb_error gb_err val s = Exited EXIT_FAILURE s'
        ∧ frees (trace s')
          = frees (trace s)
              ++ filter (λ p, p ≠ NULL) [cart_ram (priv s); rom (priv s)]
        ∧ (∀ p data, block_at (heap s') p = Some (Live data) →
             p ≠ cart_ram (priv s) ∧ p ≠ rom (priv s)
             ∧ block_at (heap s) p = Some (Live data)).
Proof.
  intros Hram Hrom Hne.
  assert (Hname : ∃ name, gb_err_str !! Z.to_nat (gb_error_code gb_err) = Some name)
    by (destruct gb_err; eexists; reflexivity).
  destruct Hname as [name Hname].
  unfold gb_error. monad_unfold. rewrite Hname.
  set (s1 := log (Stderr (gb_error_message (gb_error_code gb_err) name val)) s).
  assert (Hkeep : ∀ hp p q data, block_at (block_set hp p Freed) q = Some (Live data) →
            q ≠ p ∧ block_at hp q = Some (Live data)).
  { intros hp p q data Hq. destruct (decide (q = p)) as [->|Hqp].
    - destruct p as [|i]; [done|]. simpl in Hq.
      destruct (decide (i < length hp)%nat).
      + rewrite list_lookup_insert_eq in Hq by done. discriminate.
      + rewrite list_insert_ge in Hq by lia.
        rewrite lookup_ge_None_2 in Hq by lia. discriminate.
    - rewrite block_at_set_ne in Hq by congruence. done. }
  rewrite filter_non_null.
  destruct Hram as [Hram | [ram Hram]], Hrom as [Hrom | [image Hrom]].
  - rewrite Hram, Hrom. simpl. eexists. split; [reflexivity|]. simpl.
    rewrite !frees_app. simpl. split; [now rewrite !app_nil_r|].
    intros p data Hp. rewrite Hp. destruct p; [discriminate|]. done.
  - rewrite Hram. simpl.
    rewrite (free_live (rom (priv s)) s1 image) by exact Hrom.
    assert (Hnz : rom (priv s) ≠ NULL) by (intros Hz; rewrite Hz in Hrom; discriminate).
    eexists. split; [reflexivity|]. simpl. rewrite !frees_app. simpl.
    rewrite decide_False by exact Hnz. split; [now rewrite !app_nil_r|].
    intros p data Hp. apply Hkeep in Hp as [Hp1 Hp2].
    split; [|done]. intros ->. discriminate.
  - rewrite Hrom.
    rewrite (free_live (cart_ram (priv s)) s1 ram) by exact Hram.
    assert (Hnz : cart_ram (priv s) ≠ NULL) by (intros Hz; rewrite Hz in Hram; discriminate).
    simpl. eexists. split; [reflexivity|]. simpl. rewrite !frees_app. simpl.
    rewrite decide_False by exact Hnz. split; [now rewrite !app_nil_r|].
    intros p data Hp. apply Hkeep in Hp as [Hp1 Hp2].
    split; [done|]. split; [|done]. intros ->. discriminate.
  - assert (Hnr : rom (priv s) ≠ NULL) by (intros Hz; rewrite Hz in Hrom; discriminate).
    assert (Hnc : cart_ram (priv s) ≠ NULL) by (intros Hz; rewrite Hz in Hram; discriminate).
    assert (Hd : rom (priv s) ≠ cart_ram (priv s)) by (intros Heq; now apply Hnr, Hne).
    rewrite (free_live (cart_ram (priv s)) s1 ram) by exact Hram.
    rewrite (free_live (rom (priv s)) _ image)
      by (simpl; rewrite block_at_set_ne by congruence; exact Hrom).
    eexists. split; [reflexivity|]. simpl. rewrite !frees_app. simpl.
    rewrite !decide_False by done. split; [now rewrite <- !app_assoc|].
    intros p data Hp. apply Hkeep in Hp as [Hp1 Hp]. apply Hkeep in Hp as [Hp2 Hp].
    done.
Qed.

Lemma gb_error_frees_what_exists_witness :
  ∃ s', gb_error GB_INVALID_OPCODE 0x0100
          (set_heap [Live (bytes [1; 2; 3]%N)]
             (set_priv {| rom := 1; cart_ram := NULL; win := 1; screenWidth := 4 |}
                narrow_window))
        = Exited EXIT_FAILURE s'
        ∧ frees (trace s') = [1%nat].
Proof.
  destruct (gb_error_frees_what_exists
              (set_heap [Live (bytes [1; 2; 3]%N)]
                 (set_priv {| rom := 1; cart_ram := NULL; win := 1; screenWidth := 4 |}
                    narrow_window))
              GB_INVALID_OPCODE 0x0100) as (s' & Hrun & Hfr & _).
  - left. reflexivity.
  - right. eexists. reflexivity.
  - discriminate.
  - exists s'. split; [exact Hrun | exact Hfr].
Defined.
